(** * MXU callback correlation layer (src/components/connection/callbackCache)

    A shallow embedding of the module that bridges the global
    [maa-callback] event stream to the callers of [waitForCtrlResult] and
    [waitForResResult], together with the part of the JavaScript event loop
    the module relies on: [setTimeout], [setInterval], [Date.now] and
    promise resolution.

    Time is the integer millisecond clock of [Date.now].  Timers are ideal:
    a timer fires in the millisecond it falls due, timers due in the same
    millisecond fire in the order in which they were armed. *)

From Stdlib Require Import ZArith Lia List Ascii String.
From stdpp Require Import base option list gmap strings.

Local Open Scope Z_scope.

(** ** Data model *)

(** [export type CallbackResult = 'succeeded' | 'failed'] *)
Inductive CallbackResult : Type :=
| succeeded
| failed.

#[global] Instance CallbackResult_eq_dec : EqDecision CallbackResult.
Proof. solve_decision. Defined.

(** The two caches of the module: [ctrlCallbackCache] and
    [resCallbackCache]. *)
Inductive Namespace : Type :=
| Ctrl
| Res.

#[global] Instance Namespace_eq_dec : EqDecision Namespace.
Proof. solve_decision. Defined.

(** The two fields of [MaaCallbackDetails] the listener looks at; [None] is
    JavaScript's [undefined] (the field is absent, or the payload could not
    be parsed and the callback received [{}]). *)
Record MaaCallbackDetails : Type := mkDetails {
  ctrl_id : option Z;
  res_id : option Z
}.

(** What a timer runs when it fires. *)
Inductive Task : Type :=
| CacheDelete (ns : Namespace) (id : Z)
    (* () => cache.delete(id), armed by the listener *)
| CheckInterval (ns : Namespace) (id : Z) (startTime timeoutMs : Z).
    (* the setInterval body of a wait, with its captured variables *)

Record Timer : Type := mkTimer {
  tid : nat;       (* the handle returned by setTimeout / setInterval *)
  due : Z;         (* the millisecond in which it fires next *)
  task : Task
}.

(** One promise resolution: which promise, with which value, when, and
    which cache entry the value was read from ([None] when the value is the
    timeout's). *)
Record Settlement : Type := mkSettlement {
  promise : nat;
  value : CallbackResult;
  at_ms : Z;
  from_cache : option (Namespace * Z)
}.

(** The module's state and the event loop's. *)
Record World : Type := mkWorld {
  ctrlCallbackCache : gmap Z CallbackResult;
  resCallbackCache : gmap Z CallbackResult;
  globalListenerStarted : bool;
  callbacks : nat;             (* callbacks handed to maaService.onCallback *)
  timers : list Timer;         (* armed timers, oldest first *)
  settled : list Settlement;   (* promise resolutions, oldest first *)
  nextHandle : nat;            (* next timer / promise handle *)
  now : Z                      (* Date.now() *)
}.

(** [const CACHE_CLEANUP_TIMEOUT = 30000] *)
Definition CACHE_CLEANUP_TIMEOUT : Z := 30000.

(** The polling period passed to [setInterval]. *)
Definition POLL_INTERVAL : Z := 50.

(** The default value of the parameter [timeoutMs] of [waitForCtrlResult]
    and of [waitForResResult]. *)
Definition defaultTimeoutMs (ns : Namespace) : Z :=
  match ns with
  | Ctrl => 30000
  | Res => 30000
  end.

(** The module as loaded: empty caches, listener not started. *)
Definition initial : World :=
  mkWorld ∅ ∅ false 0%nat [] [] 0%nat 0.

(** ** Field updates *)

Definition cache (ns : Namespace) (w : World) : gmap Z CallbackResult :=
  match ns with
  | Ctrl => ctrlCallbackCache w
  | Res => resCallbackCache w
  end.

Definition withCache (ns : Namespace) (m : gmap Z CallbackResult)
    (w : World) : World :=
  match ns with
  | Ctrl => mkWorld m (resCallbackCache w) (globalListenerStarted w)
              (callbacks w) (timers w) (settled w) (nextHandle w) (now w)
  | Res => mkWorld (ctrlCallbackCache w) m (globalListenerStarted w)
              (callbacks w) (timers w) (settled w) (nextHandle w) (now w)
  end.

Definition withTimers (l : list Timer) (w : World) : World :=
  mkWorld (ctrlCallbackCache w) (resCallbackCache w) (globalListenerStarted w)
    (callbacks w) l (settled w) (nextHandle w) (now w).

Definition withNow (t : Z) (w : World) : World :=
  mkWorld (ctrlCallbackCache w) (resCallbackCache w) (globalListenerStarted w)
    (callbacks w) (timers w) (settled w) (nextHandle w) t.

(** ** The event loop's primitives *)

(** [cache.set(id, r)] *)
Definition cacheSet (ns : Namespace) (id : Z) (r : CallbackResult)
    (w : World) : World :=
  withCache ns (<[id := r]> (cache ns w)) w.

(** [cache.delete(id)]; deleting an absent key does nothing. *)
Definition cacheDelete (ns : Namespace) (id : Z) (w : World) : World :=
  withCache ns (delete id (cache ns w)) w.

(** Arm a timer under a fresh handle, [delay] milliseconds from now. *)
Definition armTimer (tk : Task) (delay : Z) (w : World) : World :=
  mkWorld (ctrlCallbackCache w) (resCallbackCache w) (globalListenerStarted w)
    (callbacks w)
    (timers w ++ [mkTimer (nextHandle w) (now w + delay) tk])
    (settled w) (S (nextHandle w)) (now w).

(** Re-arm a repeating timer under its own handle. *)
Definition rearmTimer (h : nat) (tk : Task) (delay : Z) (w : World) : World :=
  withTimers (timers w ++ [mkTimer h (now w + delay) tk]) w.

(** [resolve(v)] on promise [p]. *)
Definition resolve (p : nat) (v : CallbackResult)
    (hit : option (Namespace * Z)) (w : World) : World :=
  mkWorld (ctrlCallbackCache w) (resCallbackCache w) (globalListenerStarted w)
    (callbacks w) (timers w)
    (settled w ++ [mkSettlement p v (now w) hit])
    (nextHandle w) (now w).

(** The first resolution of a promise is the one that counts. *)
Definition outcome (p : nat) (w : World) : option Settlement :=
  head (filter (fun e => promise e = p) (settled w)).

(** ** startGlobalCallbackListener *)

(** The arrow function handed to [maaService.onCallback]. *)
Definition onCallbackBody (message : string) (details : MaaCallbackDetails)
    (w : World) : World :=
  let w1 :=
    match ctrl_id details with
    | Some id =>
        if String.eqb message "Controller.Action.Succeeded" then
          armTimer (CacheDelete Ctrl id) CACHE_CLEANUP_TIMEOUT
            (cacheSet Ctrl id succeeded w)
        else if String.eqb message "Controller.Action.Failed" then
          armTimer (CacheDelete Ctrl id) CACHE_CLEANUP_TIMEOUT
            (cacheSet Ctrl id failed w)
        else w
    | None => w
    end in
  match res_id details with
  | Some id =>
      if String.eqb message "Resource.Loading.Succeeded" then
        armTimer (CacheDelete Res id) CACHE_CLEANUP_TIMEOUT
          (cacheSet Res id succeeded w1)
      else if String.eqb message "Resource.Loading.Failed" then
        armTimer (CacheDelete Res id) CACHE_CLEANUP_TIMEOUT
          (cacheSet Res id failed w1)
      else w1
  | None => w1
  end.

(** [maaService.onCallback(cb)]: one more callback is subscribed to the
    [maa-callback] event.  [callbacks] counts the calls; the events of the
    model are those of the Tauri runtime, where each call installs a
    listener that parses the payload and runs [cb] (with [{}], both fields
    absent, when the payload does not parse). *)
Definition onCallback (w : World) : World :=
  mkWorld (ctrlCallbackCache w) (resCallbackCache w) (globalListenerStarted w)
    (S (callbacks w)) (timers w) (settled w) (nextHandle w) (now w).

Definition startGlobalCallbackListener (w : World) : World :=
  if globalListenerStarted w then w
  else
    onCallback
      (mkWorld (ctrlCallbackCache w) (resCallbackCache w) true
         (callbacks w) (timers w) (settled w) (nextHandle w) (now w)).

(** An upstream [maa-callback] event: every subscribed callback runs. *)
Definition emit (message : string) (details : MaaCallbackDetails)
    (w : World) : World :=
  Nat.iter (callbacks w) (onCallbackBody message details) w.

(** ** waitForCtrlResult / waitForResResult *)

(** The body shared, word for word, by the two wait functions; [ns] selects
    the cache.  The result is the handle of the returned promise. *)
Definition waitFor (ns : Namespace) (id : Z) (timeoutMs : option Z)
    (w : World) : nat * World :=
  let timeout := default (defaultTimeoutMs ns) timeoutMs in
  let p := nextHandle w in
  let w0 :=
    mkWorld (ctrlCallbackCache w) (resCallbackCache w)
      (globalListenerStarted w) (callbacks w) (timers w) (settled w)
      (S p) (now w) in
  match cache ns w0 !! id with
  | Some cached => (p, resolve p cached (Some (ns, id)) (cacheDelete ns id w0))
  | None =>
      (p, rearmTimer p (CheckInterval ns id (now w0) timeout) POLL_INTERVAL w0)
  end.

Definition waitForCtrlResult (ctrlId : Z) (timeoutMs : option Z)
    (w : World) : nat * World :=
  waitFor Ctrl ctrlId timeoutMs w.

Definition waitForResResult (resId : Z) (timeoutMs : option Z)
    (w : World) : nat * World :=
  waitFor Res resId timeoutMs w.

(** One run of the [setInterval] callback of the wait whose promise and
    interval handle is [p]; the interval has been taken off the timer list
    and is put back unless [clearInterval] is called. *)
Definition checkIntervalBody (p : nat) (ns : Namespace) (id : Z)
    (startTime timeoutMs : Z) (w : World) : World :=
  match cache ns w !! id with
  | Some result => resolve p result (Some (ns, id)) (cacheDelete ns id w)
  | None =>
      if now w - startTime >? timeoutMs then resolve p failed None w
      else rearmTimer p (CheckInterval ns id startTime timeoutMs)
             POLL_INTERVAL w
  end.

(** ** The event loop *)

Definition fire (tm : Timer) (w : World) : World :=
  match task tm with
  | CacheDelete ns id => cacheDelete ns id w
  | CheckInterval ns id startTime timeoutMs =>
      checkIntervalBody (tid tm) ns id startTime timeoutMs w
  end.

Definition isDue (t : Z) (tm : Timer) : bool := due tm <=? t.

(** One millisecond passes: the clock advances and the timers that are due
    fire, oldest first. *)
Definition tickMs (w : World) : World :=
  let t := now w + 1 in
  let dueNow := filter (fun tm => isDue t tm = true) (timers w) in
  let later := filter (fun tm => isDue t tm = false) (timers w) in
  foldl (fun acc tm => fire tm acc) (withTimers later (withNow t w)) dueNow.

Definition advance (ms : Z) (w : World) : World :=
  Nat.iter (Z.to_nat ms) tickMs w.

(** What the rest of the application does to the module. *)
Inductive Input : Type :=
| StartListener
| Callback (message : string) (details : MaaCallbackDetails)
| WaitCtrl (ctrlId : Z) (timeoutMs : option Z)
| WaitRes (resId : Z) (timeoutMs : option Z)
| Sleep (ms : Z).

#[global] Instance MaaCallbackDetails_eq_dec : EqDecision MaaCallbackDetails.
Proof. solve_decision. Defined.

#[global] Instance Input_eq_dec : EqDecision Input.
Proof. solve_decision. Defined.

Definition step (i : Input) (w : World) : World :=
  match i with
  | StartListener => startGlobalCallbackListener w
  | Callback message details => emit message details w
  | WaitCtrl ctrlId timeoutMs => snd (waitForCtrlResult ctrlId timeoutMs w)
  | WaitRes resId timeoutMs => snd (waitForResResult resId timeoutMs w)
  | Sleep ms => advance ms w
  end.

Definition play (l : list Input) (w : World) : World :=
  foldl (fun acc i => step i acc) w l.

(** The states the module can be in. *)
Definition reachable (w : World) : Prop :=
  exists l : list Input, w = play l initial.

(** ** The listener's contract, in the words of the specification *)

Definition succeededKind (ns : Namespace) : string :=
  match ns with
  | Ctrl => "Controller.Action.Succeeded"
  | Res => "Resource.Loading.Succeeded"
  end.

Definition failedKind (ns : Namespace) : string :=
  match ns with
  | Ctrl => "Controller.Action.Failed"
  | Res => "Resource.Loading.Failed"
  end.

(** The outcome a message kind announces in a namespace, if it is one of
    the namespace's two terminal kinds. *)
Definition terminalKind (ns : Namespace) (message : string)
    : option CallbackResult :=
  if decide (message = succeededKind ns) then Some succeeded
  else if decide (message = failedKind ns) then Some failed
  else None.

(** The namespace's ID field of an event. *)
Definition idField (ns : Namespace) (details : MaaCallbackDetails)
    : option Z :=
  match ns with
  | Ctrl => ctrl_id details
  | Res => res_id details
  end.

(** The write an event causes in a namespace: the ID and the outcome. *)
Definition writeOf (ns : Namespace) (message : string)
    (details : MaaCallbackDetails) : option (Z * CallbackResult) :=
  match idField ns details, terminalKind ns message with
  | Some id, Some r => Some (id, r)
  | _, _ => None
  end.

(** "For every known namespace, if the event's field for that namespace is
    present and the message kind is one of the namespace's terminal kinds,
    write the outcome into that namespace's table", and schedule the
    deferred removal of that key. *)
Definition writeNamespace (message : string) (details : MaaCallbackDetails)
    (w : World) (ns : Namespace) : World :=
  match writeOf ns message details with
  | Some (id, r) =>
      armTimer (CacheDelete ns id) CACHE_CLEANUP_TIMEOUT (cacheSet ns id r w)
  | None => w
  end.

Definition listenerSpec (message : string) (details : MaaCallbackDetails)
    (w : World) : World :=
  foldl (writeNamespace message details) w [Ctrl; Res].

(** ** Vocabulary of the proofs *)

(** The dispatch of the specification's [waitForOutcome(namespace, id,
    timeoutMs)] to the two exported functions. *)
Definition waitForOutcome (ns : Namespace) : Z -> option Z -> World -> nat * World :=
  match ns with
  | Ctrl => waitForCtrlResult
  | Res => waitForResResult
  end.

(** The armed timers that carry handle [h]. *)
Definition mine (h : nat) (w : World) : list Timer :=
  filter (fun tm => tid tm = h) (timers w).

(** The cache entry a timer's task looks at. *)
Definition taskKey (tk : Task) : Namespace * Z :=
  match tk with
  | CacheDelete ns id => (ns, id)
  | CheckInterval ns id _ _ => (ns, id)
  end.

(** Handles are handed out in increasing order: every handle in use is
    below the next one. *)
Definition handlesBelow (w : World) : Prop :=
  Forall (fun tm => (tid tm < nextHandle w)%nat) (timers w) /\
  Forall (fun e => (promise e < nextHandle w)%nat) (settled w).

(** The listener flag and the number of subscribed callbacks agree. *)
Definition subscribedOnce (w : World) : Prop :=
  callbacks w = if globalListenerStarted w then 1%nat else 0%nat.

(** The polling tick of a wait started at [s] that follows time [t]. *)
Definition nextTick (s t : Z) : Z :=
  s + POLL_INTERVAL * ((t - s) / POLL_INTERVAL + 1).

(** The tick at which a wait started at [s] with timeout [T] gives up: the
    first tick more than [T] after [s]. *)
Definition deadline (s T : Z) : Z :=
  s + POLL_INTERVAL * (T / POLL_INTERVAL + 1).

(** The interval of the wait [h] for [(ns, id)], next due at [d]. *)
Definition poller (ns : Namespace) (id s T : Z) (h : nat) (d : Z) : Timer :=
  mkTimer h d (CheckInterval ns id s T).

(** The wait [h] is still polling: its interval is armed for the next tick
    and its promise is pending. *)
Definition polling (ns : Namespace) (id s T : Z) (h : nat) (w : World) : Prop :=
  mine h w = [poller ns id s T h (nextTick s (now w))] /\
  outcome h w = None.

(** The wait [h] has given up at its deadline. *)
Definition timedOut (s T : Z) (h : nat) (w : World) : Prop :=
  mine h w = [] /\
  outcome h w = Some (mkSettlement h failed (deadline s T) None).

(** The state of a wait whose ID has no entry in the table. *)
Definition unanswered (ns : Namespace) (id s T : Z) (h : nat) (w : World)
    : Prop :=
  s <= now w /\ (h < nextHandle w)%nat /\ cache ns w !! id = None /\
  if decide (now w < deadline s T) then polling ns id s T h w
  else timedOut s T h w.

(** An input that does not make the listener write [(ns, id)]. *)
Definition noWrite (ns : Namespace) (id : Z) (i : Input) : Prop :=
  match i with
  | Callback message details =>
      forall r, writeOf ns message details <> Some (id, r)
  | _ => True
  end.

(** Every armed timer is due in the future. *)
Definition timersAhead (w : World) : Prop :=
  Forall (fun tm => now w < due tm) (timers w).

(** The entry of [(ns, id)], if there is one, is covered by a deferred
    deletion due no later than [D]. *)
Definition sweptBy (ns : Namespace) (id D : Z) (w : World) : Prop :=
  cache ns w !! id = None \/
  exists tm, tm ∈ timers w /\ task tm = CacheDelete ns id /\ due tm <= D.

(** The timer [tm] stays armed until it is due. *)
Definition pendingUntilDue (tm : Timer) (w : World) : Prop :=
  now w < due tm -> tm ∈ timers w.

(** Up to time [D], nothing but the interval of the wait [ho] touches
    [(ns, id)]: any other timer on that key is a deferred deletion due after
    [D]. *)
Definition calmTimer (ns : Namespace) (id : Z) (ho : option nat) (D : Z)
    (tm : Timer) : Prop :=
  taskKey (task tm) = (ns, id) ->
  Some (tid tm) = ho \/ (task tm = CacheDelete ns id /\ D < due tm).

Definition calm (ns : Namespace) (id : Z) (ho : option nat) (D : Z)
    (w : World) : Prop :=
  Forall (calmTimer ns id ho D) (timers w).

(** An input that neither makes the listener write [(ns, id)] nor starts a
    wait for it. *)
Definition noTouch (ns : Namespace) (id : Z) (i : Input) : Prop :=
  match i with
  | Callback message details =>
      forall r, writeOf ns message details <> Some (id, r)
  | WaitCtrl ctrlId _ => (ns, id) <> (Ctrl, ctrlId)
  | WaitRes resId _ => (ns, id) <> (Res, resId)
  | _ => True
  end.

(** The state of the wait [h] once the outcome [r] is in the table: until
    its next tick [D] the entry waits for it, from [D] on the promise is
    resolved with [r]. *)
Definition answered (ns : Namespace) (id s T : Z) (h : nat)
    (r : CallbackResult) (D : Z) (w : World) : Prop :=
  (h < nextHandle w)%nat /\
  if decide (now w < D) then
    cache ns w !! id = Some r /\
    mine h w = [poller ns id s T h D] /\
    outcome h w = None /\
    calm ns id (Some h) D w
  else outcome h w = Some (mkSettlement h r D (Some (ns, id))).

(** With no wait polling for it, the entry of [(ns, id)] stays in the table
    up to time [D]. *)
Definition kept (ns : Namespace) (id : Z) (r : CallbackResult) (D : Z)
    (w : World) : Prop :=
  now w <= D -> cache ns w !! id = Some r /\ calm ns id None D w.

(** How many waits were resolved with the entry of [(ns, id)]. *)
Definition hits (ns : Namespace) (id : Z) (w : World) : nat :=
  length (filter (fun e => from_cache e = Some (ns, id)) (settled w)).

(** How many outcomes the table holds for [(ns, id)]: one or none. *)
Definition present (ns : Namespace) (id : Z) (w : World) : nat :=
  match cache ns w !! id with
  | Some _ => 1
  | None => 0
  end.

(** The input is a terminal notification for [(ns, id)]. *)
Definition isWrite (ns : Namespace) (id : Z) (i : Input) : bool :=
  match i with
  | Callback message details =>
      match writeOf ns message details with
      | Some (id', _) => bool_decide (id' = id)
      | None => false
      end
  | _ => false
  end.

(** How many terminal notifications for [(ns, id)] the inputs contain. *)
Definition writes (ns : Namespace) (id : Z) (l : list Input) : nat :=
  length (filter (fun i => isWrite ns id i = true) l).

(** ** Every wait comes to an end *)

(** The tick by which a wait started at [s] with timeout [T] has given up at
    the latest; a wait polls at least once, also when [T] is negative. *)
Definition giveUp (s T : Z) : Z :=
  s + POLL_INTERVAL * Z.max 1 (T / POLL_INTERVAL + 1).

(** The promise [h] was resolved between [s] and [G], and its interval is
    no longer armed. *)
Definition settledBy (s G : Z) (h : nat) (w : World) : Prop :=
  mine h w = [] /\
  exists e, outcome h w = Some e /\ s <= at_ms e <= G.

(** The life of a wait, whatever else happens: it polls until it is
    resolved, and it is resolved by [giveUp s T]. *)
Definition settling (ns : Namespace) (id s T : Z) (h : nat) (w : World)
    : Prop :=
  s <= now w /\ (h < nextHandle w)%nat /\
  ((now w < giveUp s T /\ polling ns id s T h w) \/
   settledBy s (giveUp s T) h w).

(** The module while [startGlobalCallbackListener] has not been called:
    nothing is subscribed, both tables are empty and every wait resolved so
    far was resolved by its timeout. *)
Definition deaf (w : World) : Prop :=
  globalListenerStarted w = false /\
  callbacks w = 0%nat /\
  (forall ns id, cache ns w !! id = None) /\
  Forall (fun e => value e = failed /\ from_cache e = None) (settled w).

(** ** maaService.onCallback *)

(** The handler [maaService.onCallback] registers for [maa-callback]: the
    payload's [details] string goes through [JSON.parse] (here [parse],
    [None] when it throws) and the callback runs on the result, or on [{}]
    when parsing failed. *)
Definition onCallbackHandler
    (parse : string -> option MaaCallbackDetails)
    (callback : string -> MaaCallbackDetails -> World -> World)
    (message details : string) (w : World) : World :=
  match parse details with
  | Some parsedDetails => callback message parsedDetails w
  | None => callback message (mkDetails None None) w
  end.

(** ** maaService.waitForScreencap *)

(** The variables captured by the promise executor of [waitForScreencap]
    in the Tauri runtime, and what the event loop holds for it. *)
Record Screencap : Type := mkScreencap {
  sc_result : option bool;   (* the returned promise; [None] while pending *)
  sc_unlisten : bool;        (* [unlisten] has been assigned *)
  sc_listening : bool;       (* the handler is registered for [maa-callback] *)
  sc_timer : bool            (* the timeout is armed *)
}.

(** What can happen to one call of [waitForScreencap]. *)
Inductive ScInput : Type :=
| ScRegistered
    (* the [listen] call has registered the handler *)
| ScSettled
    (* the promise of [onCallback] settles: [unlisten = fn] *)
| ScEvent (message : string) (details : MaaCallbackDetails)
    (* an upstream event, its details parsed ([{}] if unparseable) *)
| ScTimeout.
    (* the [setTimeout] callback is due *)

(** The state the executor leaves: timeout armed, nothing registered yet. *)
Definition scStart : Screencap := mkScreencap None false false true.

(** [cleanup()]: [if (unlisten) unlisten(); if (timeoutId) clearTimeout]. *)
Definition scCleanup (s : Screencap) : Screencap :=
  mkScreencap (sc_result s) (sc_unlisten s)
    (if sc_unlisten s then false else sc_listening s) false.

(** [resolve(v)]: only the first resolution of a promise counts. *)
Definition scResolve (v : bool) (s : Screencap) : Screencap :=
  match sc_result s with
  | Some _ => s
  | None => mkScreencap (Some v) (sc_unlisten s) (sc_listening s) (sc_timer s)
  end.

(** The callback handed to [onCallback]. *)
Definition scHandler (id : Z) (message : string) (details : MaaCallbackDetails)
    (s : Screencap) : Screencap :=
  if decide (ctrl_id details = Some id) then
    if String.eqb message "Controller.Action.Succeeded" then
      scResolve true (scCleanup s)
    else if String.eqb message "Controller.Action.Failed" then
      scResolve false (scCleanup s)
    else s
  else s.

Definition scStep (id : Z) (s : Screencap) (i : ScInput) : Screencap :=
  match i with
  | ScRegistered =>
      mkScreencap (sc_result s) (sc_unlisten s) true (sc_timer s)
  | ScSettled =>
      mkScreencap (sc_result s) true (sc_listening s) (sc_timer s)
  | ScEvent message details =>
      if sc_listening s then scHandler id message details s else s
  | ScTimeout =>
      if sc_timer s then scResolve false (scCleanup s) else s
  end.

Definition scRun (id : Z) (l : list ScInput) (s : Screencap) : Screencap :=
  foldl (scStep id) s l.

(** The event is a terminal controller notification for [id], and says
    whether the action succeeded. *)
Definition scVerdict (id : Z) (i : ScInput) : option bool :=
  match i with
  | ScEvent message details =>
      if decide (ctrl_id details = Some id) then terminalKind Ctrl message
        ≫= (fun r => Some (bool_decide (r = succeeded)))
      else None
  | _ => None
  end.

(** What a caller expects of [waitForScreencap]: the first thing to happen,
    the timeout or a terminal notification for the ID delivered to the
    registered handler, decides. *)
Fixpoint scFirstDecision (id : Z) (registered : bool) (l : list ScInput)
    : option bool :=
  match l with
  | [] => None
  | ScTimeout :: _ => Some false
  | ScRegistered :: l' => scFirstDecision id true l'
  | ScSettled :: l' => scFirstDecision id registered l'
  | ScEvent message details :: l' =>
      match scVerdict id (ScEvent message details) with
      | Some v => if registered then Some v else scFirstDecision id registered l'
      | None => scFirstDecision id registered l'
      end
  end.

(** ** utils/color *)

(** A JavaScript string is modelled by the sequence of its code units;
    the model covers the strings whose code units are below 256. *)

(** The code units [String.prototype.trim] strips: TAB, LF, VT, FF, CR,
    space and no-break space. *)
Definition isWhiteSpace (c : ascii) : bool :=
  let n := nat_of_ascii c in
  ((9 <=? n) && (n <=? 13) || (n =? 32) || (n =? 160))%nat.

Fixpoint trimStart (s : string) : string :=
  match s with
  | String c s' => if isWhiteSpace c then trimStart s' else s
  | EmptyString => EmptyString
  end.

Fixpoint trimEnd (s : string) : string :=
  match s with
  | String c s' =>
      match trimEnd s' with
      | EmptyString =>
          if isWhiteSpace c then EmptyString else String c EmptyString
      | t => String c t
      end
  | EmptyString => EmptyString
  end.

Definition trim (s : string) : string := trimEnd (trimStart s).

(** [toLowerCase] on one code unit: A-Z, and the capitals U+00C0-U+00D6 and
    U+00D8-U+00DE, move up by 32. *)
Definition lowerUnit (c : ascii) : ascii :=
  let n := nat_of_ascii c in
  if ((65 <=? n) && (n <=? 90) || (192 <=? n) && (n <=? 214)
      || (216 <=? n) && (n <=? 222))%nat
  then ascii_of_nat (n + 32) else c.

Fixpoint toLowerCase (s : string) : string :=
  match s with
  | String c s' => String (lowerUnit c) (toLowerCase s')
  | EmptyString => EmptyString
  end.

Fixpoint allUnits (f : ascii -> bool) (s : string) : bool :=
  match s with
  | String c s' => f c && allUnits f s'
  | EmptyString => true
  end.

(** The character classes [[0-9a-f]] and [[0-9a-fA-F]]. *)
Definition isLowerHexDigit (c : ascii) : bool :=
  let n := nat_of_ascii c in
  ((48 <=? n) && (n <=? 57) || (97 <=? n) && (n <=? 102))%nat.

Definition isHexDigit (c : ascii) : bool :=
  let n := nat_of_ascii c in
  ((48 <=? n) && (n <=? 57) || (97 <=? n) && (n <=? 102)
   || (65 <=? n) && (n <=? 70))%nat.

(** [v.startsWith('#')] *)
Definition startsWithHash (s : string) : bool :=
  match s with
  | String c _ => Ascii.eqb c "#"
  | EmptyString => false
  end.

(** [/^#[digit]{n}$/.test(v)] *)
Definition testHashDigits (digit : ascii -> bool) (n : nat) (v : string)
    : bool :=
  match v with
  | String c body =>
      Ascii.eqb c "#" && (String.length body =? n)%nat && allUnits digit body
  | EmptyString => false
  end.

(** [/^#?[0-9a-fA-F]{0,6}$/.test(v)] *)
Definition testPartialHex (v : string) : bool :=
  let body := match v with
              | String c body => if Ascii.eqb c "#" then body else v
              | EmptyString => v
              end in
  (String.length body <=? 6)%nat && allUnits isHexDigit body.

Definition isHexLike (input : string) : bool :=
  let v := trim input in
  String.eqb v EmptyString || String.eqb v "#" || testPartialHex v.

Definition isValidHex (input : string) : bool :=
  let v := trim input in
  testHashDigits isHexDigit 6 v || testHashDigits isHexDigit 3 v.

(** [normalizeHex]; [None] is [null].  In the three-digit branch the test
    has just established that [v] has four code units. *)
Definition normalizeHex (input : string) : option string :=
  let v := trim input in
  if String.eqb v EmptyString then None
  else
    let v := if startsWithHash v then v else String "#" v in
    let v := toLowerCase v in
    if testHashDigits isLowerHexDigit 3 v then
      match v with
      | String _ (String r (String g (String b _))) =>
          Some (String "#" (String r (String r (String g (String g
                 (String b (String b EmptyString)))))))
      | _ => None
      end
    else if testHashDigits isLowerHexDigit 6 v then Some v
    else None.

(** The form [normalizeHex] returns: [#] and six digits of [[0-9a-f]]. *)
Definition isCanonicalHex (h : string) : bool :=
  testHashDigits isLowerHexDigit 6 h.

Definition noSpace (c : ascii) : bool := negb (isWhiteSpace c).

(** ** utils/optionHelpers *)

Definition YES_CASE_NAMES : list string := ["Yes"; "yes"; "Y"; "y"].

Definition NO_CASE_NAMES : list string := ["No"; "no"; "N"; "n"].

(** [targetNames.includes(name)] *)
Definition includes (names : list string) (name : string) : bool :=
  existsb (String.eqb name) names.

(** [findSwitchCase(cases, isChecked)]; [CaseItem] is any record with a
    [name], [None] is [undefined]. *)
Definition findSwitchCase {CaseItem : Type} (name : CaseItem -> string)
    (cases : option (list CaseItem)) (isChecked : bool) : option CaseItem :=
  match cases with
  | None => None
  | Some cs =>
      let targetNames := if isChecked then YES_CASE_NAMES else NO_CASE_NAMES in
      List.find (fun c => includes targetNames (name c)) cs
  end.

(** ** services/configService *)

Definition CONFIG_DIR : string := "config".

(** [getConfigFileName(projectName?)]; an empty name is falsy. *)
Definition getConfigFileName (projectName : option string) : string :=
  match projectName with
  | Some p => if String.eqb p EmptyString then "mxu.json"
              else String.append "mxu-" (String.append p ".json")
  | None => "mxu.json"
  end.

(** Replace every backslash (code unit 92) by a slash: the first [replace]
    of [getConfigDir]. *)
Fixpoint replaceBackslashes (s : string) : string :=
  match s with
  | String c s' =>
      String (if Ascii.eqb c "092" then "/"%char else c)
        (replaceBackslashes s')
  | EmptyString => EmptyString
  end.

(** Drop one slash at the very end: the second [replace] of
    [getConfigDir]. *)
Fixpoint dropTrailingSlash (s : string) : string :=
  match s with
  | String c EmptyString => if Ascii.eqb c "/" then EmptyString else s
  | String c s' => String c (dropTrailingSlash s')
  | EmptyString => EmptyString
  end.

Definition getConfigDir (basePath : string) : string :=
  if String.eqb basePath EmptyString || String.eqb basePath "." then
    String.append "./" CONFIG_DIR
  else
    let normalizedBase := dropTrailingSlash (replaceBackslashes basePath) in
    String.append normalizedBase (String.append "/" CONFIG_DIR).

Definition getConfigPath (basePath : string) (projectName : option string)
    : string :=
  String.append (getConfigDir basePath)
    (String.append "/" (getConfigFileName projectName)).

(** The key under which [saveConfig] and [loadConfigFromStorage] keep a
    project's configuration in [localStorage]. *)
Definition storageKey (projectName : option string) : string :=
  match projectName with
  | Some p => if String.eqb p EmptyString then "mxu-config"
              else String.append "mxu-config-" p
  | None => "mxu-config"
  end.

(** [saveConfig] outside Tauri.  [stringify] is [JSON.stringify];
    [fits storage key value] tells whether [localStorage.setItem] accepts the
    item (it throws otherwise, and [saveConfig] returns [false]). *)
Definition saveConfigBrowser {Config : Type} (stringify : Config -> string)
    (fits : gmap string string -> string -> string -> bool)
    (config : Config) (projectName : option string)
    (storage : gmap string string) : bool * gmap string string :=
  let key := storageKey projectName in
  if fits storage key (stringify config)
  then (true, <[key := stringify config]> storage)
  else (false, storage).

(** [loadConfigFromStorage]; [parse] is [JSON.parse], [None] when it
    throws. *)
Definition loadConfigFromStorage {Config : Type}
    (parse : string -> option Config) (isTauri : bool)
    (projectName : option string) (storage : gmap string string)
    : option Config :=
  if isTauri then None
  else
    match storage !! storageKey projectName with
    | Some stored =>
        if String.eqb stored EmptyString then None else parse stored
    | None => None
    end.

(** The project a name stands for: no name and the empty name are the
    same project. *)
Definition projectKey (projectName : option string) : option string :=
  match projectName with
  | Some p => if String.eqb p EmptyString then None else Some p
  | None => None
  end.

Fixpoint hasUnit (u : ascii) (s : string) : bool :=
  match s with
  | String c s' => Ascii.eqb c u || hasUnit u s'
  | EmptyString => false
  end.

Fixpoint endsWith (suffix s : string) : bool :=
  String.eqb s suffix ||
  match s with
  | String _ s' => endsWith suffix s'
  | EmptyString => false
  end.

(** ** services/interfaceLoader *)

(** What a [fetch] resolves to, as far as the loader looks at it. *)
Record Response : Type := mkResponse {
  ok : bool;
  jsonContentType : bool;
    (* the content-type header is present and includes application/json *)
  text : option string
    (* what [response.text()] resolves to; [None] when it rejects *)
}.

Record LoadResult (PI T : Type) : Type := mkLoadResult {
  interface : PI;
  translations : list (string * T);
  basePath : string;
  isDebugMode : bool
}.

Arguments mkLoadResult {PI T}.
Arguments interface {PI T}.
Arguments translations {PI T}.
Arguments basePath {PI T}.
Arguments isDebugMode {PI T}.

(** The other end of [fetch].  Every call of [fetch] is a request of its
    own: the answer depends on the path and on the requests made before, and
    is [None] when the promise rejects. *)
Definition Server : Type := list string -> string -> option Response.

(** [fetch(path)]: the server's answer, and the request added to the
    requests made so far. *)
Definition fetch (server : Server) (path : string) (requests : list string)
    : option Response * list string :=
  (server requests path, requests ++ [path]).

Definition httpFileExists (server : Server) (path : string)
    (requests : list string) : bool * list string :=
  match fetch server path requests with
  | (Some response, requests') =>
      (ok response && jsonContentType response, requests')
  | (None, requests') => (false, requests')
  end.

(** [loadInterfaceFromHttp]; [None] when it throws.  [parse] is
    [JSON.parse] ([None] when it throws); [interface_version] reads the field
    of that name ([None] when it is not an integer). *)
Definition loadInterfaceFromHttp {PI : Type} (server : Server)
    (parse : string -> option PI) (interface_version : PI -> option Z)
    (path : string) (requests : list string) : option PI * list string :=
  match fetch server path requests with
  | (None, requests') => (None, requests')
  | (Some response, requests') =>
      if negb (ok response) then (None, requests')
      else
        match text response with
        | None => (None, requests')
        | Some content =>
            match parse content with
            | None => (None, requests')
            | Some pi =>
                if decide (interface_version pi = Some 2)
                then (Some pi, requests')
                else (None, requests')
            end
        end
  end.

(** One turn of the loop of [loadTranslationsFromHttp]: a translation file
    that cannot be fetched, read or parsed is skipped. *)
Definition loadTranslation {T : Type} (server : Server)
    (parseT : string -> option T) (basePath : string)
    (acc : list (string * T) * list string) (entry : string * string)
    : list (string * T) * list string :=
  let '(translations, requests) := acc in
  let '(lang, relativePath) := entry in
  let langPath :=
    if String.eqb basePath EmptyString
    then String.append "/" relativePath
    else String.append basePath (String.append "/" relativePath) in
  match fetch server langPath requests with
  | (Some response, requests') =>
      if ok response then
        match text response with
        | Some langContent =>
            match parseT langContent with
            | Some t => (translations ++ [(lang, t)], requests')
            | None => (translations, requests')
            end
        | None => (translations, requests')
        end
      else (translations, requests')
  | (None, requests') => (translations, requests')
  end.

(** [loadTranslationsFromHttp]: the assignments [translations[lang] = ...]
    in the order of [Object.entries(pi.languages)]. *)
Definition loadTranslationsFromHttp {PI T : Type} (server : Server)
    (parseT : string -> option T)
    (languages : PI -> option (list (string * string)))
    (pi : PI) (basePath : string) (requests : list string)
    : list (string * T) * list string :=
  match languages pi with
  | None => ([], requests)
  | Some entries =>
      foldl (loadTranslation server parseT basePath) ([], requests) entries
  end.

(** [autoLoadInterface]; [None] when it throws. *)
Definition autoLoadInterface {PI T : Type} (server : Server)
    (parse : string -> option PI) (parseT : string -> option T)
    (interface_version : PI -> option Z)
    (languages : PI -> option (list (string * string)))
    (requests : list string) : option (LoadResult PI T) * list string :=
  let primaryPath := "/interface.json" in
  let debugPath := "/test/interface.json" in
  let '(primaryExists, requests1) :=
    httpFileExists server primaryPath requests in
  if primaryExists then
    match loadInterfaceFromHttp server parse interface_version primaryPath
            requests1 with
    | (Some pi, requests2) =>
        let '(translations, requests3) :=
          loadTranslationsFromHttp server parseT languages pi EmptyString
            requests2 in
        (Some (mkLoadResult pi translations EmptyString false), requests3)
    | (None, requests2) => (None, requests2)
    end
  else
    let '(debugExists, requests2) :=
      httpFileExists server debugPath requests1 in
    if debugExists then
      match loadInterfaceFromHttp server parse interface_version debugPath
              requests2 with
      | (Some pi, requests3) =>
          let '(translations, requests4) :=
            loadTranslationsFromHttp server parseT languages pi "/test"
              requests3 in
          (Some (mkLoadResult pi translations "/test" true), requests4)
      | (None, requests3) => (None, requests3)
      end
    else (None, requests2).

(** The answer tells [httpFileExists] that the file is there. *)
Definition servedAsJson (answer : option Response) : Prop :=
  exists response,
    answer = Some response /\ ok response = true /\
    jsonContentType response = true.

(** The answer carries the version 2 interface [pi]. *)
Definition carries {PI : Type} (parse : string -> option PI)
    (interface_version : PI -> option Z) (answer : option Response) (pi : PI)
    : Prop :=
  exists response content,
    answer = Some response /\ ok response = true /\
    text response = Some content /\ parse content = Some pi /\
    interface_version pi = Some 2.

(** ** Proof automation *)

(** Case analysis on what a firing timer does. *)
Ltac fire_cases tm w :=
  unfold fire, checkIntervalBody;
  let ns := fresh "ns" in
  let id := fresh "id" in
  let s := fresh "s" in
  let T := fresh "T" in
  destruct (task tm) as [ns id|ns id s T] eqn:?;
  [| destruct (cache ns w !! id) eqn:?;
     [| destruct (now w - s >? T) eqn:?]].

(** Case analysis on the 256 code units. *)
Ltac all_units c :=
  destruct c as [[] [] [] [] [] [] [] []]; try reflexivity; try discriminate.

(** Arithmetic of polling ticks: floor division by the polling period. *)
Ltac tick_arith :=
  unfold nextTick, deadline, POLL_INTERVAL in *; Z.div_mod_to_equations; lia.

(** ** The example scenarios of the specification *)


Example spec_scenario_42 :
  let w := play [StartListener;
                 Callback "Controller.Action.Succeeded" (mkDetails (Some 42) None);
                 Sleep 10] initial in
  let '(p, w') := waitForCtrlResult 42 (Some 30000) w in
  outcome p w' = Some (mkSettlement p succeeded 10 (Some (Ctrl, 42))).
Proof. vm_compute. reflexivity. Qed.

Example spec_scenario_7 :
  let '(p, w) := waitForCtrlResult 7 (Some 200) (play [StartListener] initial) in
  outcome p (advance 249 w) = None /\
  outcome p (advance 250 w) = Some (mkSettlement p failed 250 None).
Proof. vm_compute. split; reflexivity. Qed.

(** ** Basic facts about the primitives *)

Lemma cache_withCache_eq ns m w : cache ns (withCache ns m w) = m.
Proof. by destruct ns. Qed.

Lemma cache_withCache_ne ns ns' m w :
  ns <> ns' -> cache ns' (withCache ns m w) = cache ns' w.
Proof. by destruct ns, ns'. Qed.

Lemma terminalKind_eqb ns message :
  terminalKind ns message =
    if String.eqb message (succeededKind ns) then Some succeeded
    else if String.eqb message (failedKind ns) then Some failed
    else None.
Proof.
  unfold terminalKind.
  destruct (String.eqb_spec message (succeededKind ns)) as [->|Hs].
  - by rewrite decide_True.
  - rewrite decide_False by done.
    destruct (String.eqb_spec message (failedKind ns)) as [->|Hf].
    + by rewrite decide_True.
    + by rewrite decide_False.
Qed.

Lemma Forall_filter_keep {A} (P Q : A -> Prop) `{!forall x, Decision (Q x)}
    (l : list A) :
  Forall P l -> Forall P (filter Q l).
Proof.
  rewrite !Forall_forall. intros HP x [_ Hx]%list_elem_of_filter. auto.
Qed.

Lemma filter_none {A} (Q : A -> Prop) `{!forall x, Decision (Q x)}
    (l : list A) :
  Forall (fun x => ~ Q x) l -> filter Q l = [].
Proof.
  induction 1 as [|x l Hx _ IH]; [done|].
  rewrite filter_cons. by destruct (decide (Q x)).
Qed.

(** The effects of one timer firing, field by field. *)

Lemma fire_frame tm w :
  now (fire tm w) = now w /\
  nextHandle (fire tm w) = nextHandle w /\
  callbacks (fire tm w) = callbacks w /\
  globalListenerStarted (fire tm w) = globalListenerStarted w.
Proof. fire_cases tm w; destruct ns; done. Qed.

Lemma fire_now tm w : now (fire tm w) = now w.
Proof. apply fire_frame. Qed.

Lemma fire_nextHandle tm w : nextHandle (fire tm w) = nextHandle w.
Proof. apply fire_frame. Qed.

Lemma fire_timers tm w :
  timers (fire tm w) = timers w \/
  (exists ns id s T, task tm = CheckInterval ns id s T) /\
  timers (fire tm w)
    = timers w ++ [mkTimer (tid tm) (now w + POLL_INTERVAL) (task tm)].
Proof.
  fire_cases tm w; destruct ns; simpl; auto.
  all: right; split; [by do 4 eexists|congruence].
Qed.

Lemma fire_settled tm w :
  settled (fire tm w) = settled w \/
  exists v hit,
    settled (fire tm w) = settled w ++ [mkSettlement (tid tm) v (now w) hit].
Proof. fire_cases tm w; destruct ns; simpl; eauto. Qed.

Lemma fire_cache_None tm w ns id :
  cache ns w !! id = None -> cache ns (fire tm w) !! id = None.
Proof.
  intros Hnone. fire_cases tm w; destruct ns, ns0; simpl in *; try done.
  all: destruct (decide (id0 = id)) as [->|Hne];
    [by rewrite lookup_delete_eq|by rewrite lookup_delete_ne].
Qed.

Lemma fire_cache_other tm w ns id :
  taskKey (task tm) <> (ns, id) ->
  cache ns (fire tm w) !! id = cache ns w !! id.
Proof.
  intros Hkey. fire_cases tm w; destruct ns, ns0; simpl in *; try done.
  all: rewrite lookup_delete_ne; [done|congruence].
Qed.

(** Folding an invariant over the timers that fire in one millisecond. *)
Lemma foldl_fire_inv (P : World -> Prop) (l : list Timer) (w : World) :
  P w ->
  (forall tm w', In tm l -> P w' -> P (fire tm w')) ->
  P (foldl (fun acc tm => fire tm acc) w l).
Proof.
  revert w. induction l as [|tm l IH]; intros w Hw Hstep; [done|].
  simpl. apply IH.
  - apply Hstep; [by left|done].
  - intros tm' w' Hin. apply Hstep. by right.
Qed.

(** ** The listener *)

Lemma onCallbackBody_listenerSpec message details w :
  onCallbackBody message details w = listenerSpec message details w.
Proof.
  unfold onCallbackBody, listenerSpec, writeNamespace, writeOf, idField.
  cbn [foldl]. rewrite !terminalKind_eqb. cbn [succeededKind failedKind].
  destruct (ctrl_id details) as [c|], (res_id details) as [r|];
    try reflexivity;
    repeat (case_match; simplify_eq; try reflexivity).
Qed.

(** C8. For every event and each namespace, the listener writes the
    outcome into the namespace's table exactly when the namespace's ID field
    is present and the message kind is one of the namespace's two terminal
    kinds; any other event leaves the tables and the timers alone.  The
    callback body is total: no event makes it fail. *)
Theorem listener_writes_exactly_terminal
    (message : string) (details : MaaCallbackDetails) (w : World) :
  onCallbackBody message details w = listenerSpec message details w /\
  (forall ns : Namespace,
     cache ns (onCallbackBody message details w) =
       match writeOf ns message details with
       | Some (id, r) => <[id := r]> (cache ns w)
       | None => cache ns w
       end) /\
  ((forall ns, writeOf ns message details = None) ->
   onCallbackBody message details w = w).
Proof.
  pose proof (onCallbackBody_listenerSpec message details w) as Heq.
  split; [exact Heq|]. split.
  - intros ns. rewrite Heq. unfold listenerSpec, writeNamespace; simpl.
    destruct ns;
      destruct (writeOf Ctrl message details) as [[ic rc]|],
               (writeOf Res message details) as [[ir rr]|]; reflexivity.
  - intros Hnone. rewrite Heq. unfold listenerSpec, writeNamespace; simpl.
    by rewrite !Hnone.
Qed.

(** ** Invariants of the event loop *)

Lemma tickMs_inv (P : World -> Prop) (w : World) :
  P (withTimers (filter (fun tm => isDue (now w + 1) tm = false) (timers w))
       (withNow (now w + 1) w)) ->
  (forall tm w',
     tm ∈ timers w -> isDue (now w + 1) tm = true -> P w' -> P (fire tm w')) ->
  P (tickMs w).
Proof.
  intros Hstart Hstep. unfold tickMs. apply foldl_fire_inv; [done|].
  intros tm w' Hin. apply list_elem_of_In, list_elem_of_filter in Hin as [Hd Hin].
  by apply Hstep.
Qed.

Lemma advance_inv (P : World -> Prop) (ms : Z) (w : World) :
  P w -> (forall w', P w' -> P (tickMs w')) -> P (advance ms w).
Proof.
  intros Hw Hstep. unfold advance.
  induction (Z.to_nat ms) as [|n IH]; simpl; auto.
Qed.

Lemma emit_inv (P : World -> Prop) message details (w : World) :
  P w -> (forall w', P w' -> P (onCallbackBody message details w')) ->
  P (emit message details w).
Proof.
  intros Hw Hstep. unfold emit.
  induction (callbacks w) as [|n IH]; simpl; auto.
Qed.

Lemma play_inv (P : World -> Prop) (l : list Input) (w : World) :
  P w -> (forall i w', In i l -> P w' -> P (step i w')) -> P (play l w).
Proof.
  revert w. induction l as [|i l IH]; intros w Hw Hstep; [done|].
  simpl. apply IH.
  - apply Hstep; [by left|done].
  - intros i' w' Hin. apply Hstep. by right.
Qed.

Lemma play_app l1 l2 w : play (l1 ++ l2) w = play l2 (play l1 w).
Proof. apply foldl_app. Qed.

Lemma reachable_step i w : reachable w -> reachable (step i w).
Proof.
  intros [l ->]. exists (l ++ [i]). by rewrite play_app.
Qed.

Lemma reachable_play l w : reachable w -> reachable (play l w).
Proof.
  intros [l0 ->]. exists (l0 ++ l). by rewrite play_app.
Qed.

(** *** Handles are fresh *)

Lemma writeNamespace_handlesBelow message details w ns :
  handlesBelow w -> handlesBelow (writeNamespace message details w ns).
Proof.
  intros [Ht Hs]. unfold writeNamespace.
  destruct (writeOf ns message details) as [[id r]|]; [|done].
  split; destruct ns; simpl.
  1,2: apply Forall_app; split;
    [eapply Forall_impl; [exact Ht|simpl; lia]
    |apply Forall_singleton; simpl; lia].
  all: eapply Forall_impl; [exact Hs|simpl; lia].
Qed.

Lemma onCallbackBody_handlesBelow message details w :
  handlesBelow w -> handlesBelow (onCallbackBody message details w).
Proof.
  intros Hw. rewrite onCallbackBody_listenerSpec. unfold listenerSpec; simpl.
  by do 2 apply writeNamespace_handlesBelow.
Qed.

Lemma waitFor_handlesBelow ns id timeoutMs w :
  handlesBelow w -> handlesBelow (snd (waitFor ns id timeoutMs w)).
Proof.
  intros [Ht Hs]. unfold waitFor.
  destruct ns; simpl; case_match; simpl; split.
  all: repeat (apply Forall_app; split);
    try (apply Forall_singleton; simpl; lia);
    try (eapply Forall_impl; [exact Ht|simpl; lia]);
    try (eapply Forall_impl; [exact Hs|simpl; lia]).
Qed.

Lemma fire_handlesBelow tm w :
  (tid tm < nextHandle w)%nat -> handlesBelow w -> handlesBelow (fire tm w).
Proof.
  intros Hlt [Ht Hs]. split.
  - rewrite fire_nextHandle.
    destruct (fire_timers tm w) as [->|[_ ->]]; [done|].
    apply Forall_app; split; [done|]. by apply Forall_singleton.
  - rewrite fire_nextHandle.
    destruct (fire_settled tm w) as [->|(v & hit & ->)]; [done|].
    apply Forall_app; split; [done|]. by apply Forall_singleton.
Qed.

Lemma tickMs_handlesBelow w : handlesBelow w -> handlesBelow (tickMs w).
Proof.
  intros [Ht Hs].
  apply (tickMs_inv
           (fun w' => handlesBelow w' /\ nextHandle w' = nextHandle w)).
  - split; [split|done]; simpl; [|done].
    by apply Forall_filter_keep.
  - intros tm w' Hin _ [Hw' Hn]. rewrite fire_nextHandle. split; [|done].
    apply fire_handlesBelow; [|done].
    rewrite Hn. rewrite Forall_forall in Ht. by apply Ht.
Qed.

Lemma step_handlesBelow i w : handlesBelow w -> handlesBelow (step i w).
Proof.
  intros Hw. destruct i; simpl.
  - unfold startGlobalCallbackListener. by destruct (globalListenerStarted w).
  - apply emit_inv; [done|]. intros w'. apply onCallbackBody_handlesBelow.
  - by apply waitFor_handlesBelow.
  - by apply waitFor_handlesBelow.
  - apply advance_inv; [done|]. intros w'. apply tickMs_handlesBelow.
Qed.

Lemma reachable_handlesBelow w : reachable w -> handlesBelow w.
Proof.
  intros [l ->]. apply play_inv.
  - split; constructor.
  - intros i w' _. apply step_handlesBelow.
Qed.

Lemma outcome_fresh p w :
  handlesBelow w -> (nextHandle w <= p)%nat -> outcome p w = None.
Proof.
  intros [_ Hs] Hle. unfold outcome.
  rewrite filter_none; [done|].
  eapply Forall_impl; [exact Hs|]. simpl. lia.
Qed.

(** *** At most one subscription *)

Lemma fire_subscription tm w :
  callbacks (fire tm w) = callbacks w /\
  globalListenerStarted (fire tm w) = globalListenerStarted w.
Proof. pose proof (fire_frame tm w). tauto. Qed.

Lemma writeNamespace_subscription message details w ns :
  callbacks (writeNamespace message details w ns) = callbacks w /\
  globalListenerStarted (writeNamespace message details w ns)
    = globalListenerStarted w.
Proof.
  unfold writeNamespace.
  destruct (writeOf ns message details) as [[id r]|]; [|done].
  by destruct ns.
Qed.

Lemma onCallbackBody_subscription message details w :
  callbacks (onCallbackBody message details w) = callbacks w /\
  globalListenerStarted (onCallbackBody message details w)
    = globalListenerStarted w.
Proof.
  rewrite onCallbackBody_listenerSpec. unfold listenerSpec; simpl.
  destruct (writeNamespace_subscription message details
              (writeNamespace message details w Ctrl) Res) as [-> ->].
  apply writeNamespace_subscription.
Qed.

Lemma waitFor_subscription ns id timeoutMs w :
  callbacks (snd (waitFor ns id timeoutMs w)) = callbacks w /\
  globalListenerStarted (snd (waitFor ns id timeoutMs w))
    = globalListenerStarted w.
Proof. unfold waitFor. by destruct ns; simpl; case_match. Qed.

Lemma step_subscription i w :
  i <> StartListener ->
  callbacks (step i w) = callbacks w /\
  globalListenerStarted (step i w) = globalListenerStarted w.
Proof.
  intros Hi. destruct i; simpl; try done.
  - apply (emit_inv (fun w' => callbacks w' = callbacks w /\
                       globalListenerStarted w' = globalListenerStarted w));
      [done|].
    intros w' [<- <-]. apply onCallbackBody_subscription.
  - apply waitFor_subscription.
  - apply waitFor_subscription.
  - apply (advance_inv (fun w' => callbacks w' = callbacks w /\
                          globalListenerStarted w' = globalListenerStarted w));
      [done|].
    intros w' [<- <-].
    apply (tickMs_inv (fun w'' => callbacks w'' = callbacks w' /\
                         globalListenerStarted w'' = globalListenerStarted w'));
      [done|].
    intros tm w'' _ _ [<- <-]. apply fire_subscription.
Qed.

Lemma step_subscribedOnce i w : subscribedOnce w -> subscribedOnce (step i w).
Proof.
  unfold subscribedOnce. intros Hw.
  destruct (decide (i = StartListener)) as [->|Hi].
  - simpl. unfold startGlobalCallbackListener.
    destruct (globalListenerStarted w) eqn:Hg; [by rewrite Hg|].
    simpl. by rewrite Hw.
  - by destruct (step_subscription i w Hi) as [-> ->].
Qed.

Lemma reachable_subscribedOnce w : reachable w -> subscribedOnce w.
Proof.
  intros [l ->]. apply play_inv; [done|].
  intros i w' _. apply step_subscribedOnce.
Qed.

Lemma step_started i w :
  globalListenerStarted w = true \/ i = StartListener ->
  globalListenerStarted (step i w) = true.
Proof.
  intros Hor. destruct (decide (i = StartListener)) as [->|Hi].
  - simpl. unfold startGlobalCallbackListener.
    by destruct (globalListenerStarted w) eqn:Hg.
  - destruct (step_subscription i w Hi) as [_ ->]. by destruct Hor.
Qed.

Lemma play_started l w :
  globalListenerStarted w = true \/ In StartListener l ->
  globalListenerStarted (play l w) = true.
Proof.
  revert w. induction l as [|i l IH]; intros w Hor.
  - by destruct Hor.
  - simpl. destruct Hor as [Hg|[->|Hin]].
    + apply IH. left. apply step_started. by left.
    + apply IH. left. apply step_started. by right.
    + apply IH. by right.
Qed.

Lemma emit_once message details w :
  reachable w -> globalListenerStarted w = true ->
  emit message details w = onCallbackBody message details w.
Proof.
  intros Hr Hg. pose proof (reachable_subscribedOnce w Hr) as Hc.
  unfold subscribedOnce in Hc. rewrite Hg in Hc.
  unfold emit. by rewrite Hc.
Qed.

(** C7. However many times [startGlobalCallbackListener] is called, and
    whatever else happens around the calls, once it has been called there is
    exactly one callback subscribed through [maaService.onCallback]; a
    further call changes nothing, and an upstream event runs the callback
    body exactly once. *)
Theorem listener_subscribes_exactly_once (l : list Input) :
  In StartListener l ->
  let w := play l initial in
  callbacks w = 1%nat /\
  startGlobalCallbackListener w = w /\
  (forall n : nat, Nat.iter n startGlobalCallbackListener w = w) /\
  (forall message details,
     emit message details w = onCallbackBody message details w).
Proof.
  intros Hin w.
  assert (Hr : reachable w) by (by exists l).
  assert (Hg : globalListenerStarted w = true)
    by (apply play_started; by right).
  pose proof (reachable_subscribedOnce w Hr) as Hc.
  unfold subscribedOnce in Hc. rewrite Hg in Hc.
  assert (Hs : startGlobalCallbackListener w = w)
    by (unfold startGlobalCallbackListener; by rewrite Hg).
  repeat split; try done.
  - intros n. induction n as [|n IH]; [done|]. simpl. by rewrite IH.
  - intros message details. by apply emit_once.
Qed.

Lemma listener_subscribes_exactly_once_witness :
  In StartListener [StartListener; Sleep 5; StartListener; StartListener] /\
  callbacks (play [StartListener; Sleep 5; StartListener; StartListener]
               initial) = 1%nat.
Proof.
  split; [by left|].
  apply (listener_subscribes_exactly_once
           [StartListener; Sleep 5; StartListener; StartListener]).
  by left.
Defined.

(** ** Default timeout *)

(** C9 as stated fails: the default timeout does not depend on the
    namespace. *)
Lemma default_timeout_does_not_depend_on_namespace :
  ~ (exists ns1 ns2 : Namespace, defaultTimeoutMs ns1 <> defaultTimeoutMs ns2).
Proof. intros (ns1 & ns2 & Hne). by destruct ns1, ns2. Qed.

(** C9, amended. When the caller omits [timeoutMs], both
    [waitForCtrlResult] and [waitForResResult] wait with a timeout of
    30000 ms. *)
Theorem default_timeout_is_30_seconds (id : Z) (w : World) :
  waitForCtrlResult id None w = waitForCtrlResult id (Some 30000) w /\
  waitForResResult id None w = waitForResResult id (Some 30000) w /\
  forall ns, defaultTimeoutMs ns = 30000.
Proof. repeat split. by intros []. Qed.

(** ** The first check of a wait *)

Lemma waitFor_hit ns id timeoutMs w r :
  cache ns w !! id = Some r ->
  fst (waitFor ns id timeoutMs w) = nextHandle w /\
  settled (snd (waitFor ns id timeoutMs w))
    = settled w ++ [mkSettlement (nextHandle w) r (now w) (Some (ns, id))] /\
  timers (snd (waitFor ns id timeoutMs w)) = timers w /\
  now (snd (waitFor ns id timeoutMs w)) = now w /\
  cache ns (snd (waitFor ns id timeoutMs w)) = delete id (cache ns w).
Proof.
  intros Hc. unfold waitFor.
  destruct ns; simpl in *; rewrite Hc; done.
Qed.

Lemma waitFor_miss ns id timeoutMs w :
  cache ns w !! id = None ->
  fst (waitFor ns id timeoutMs w) = nextHandle w /\
  settled (snd (waitFor ns id timeoutMs w)) = settled w /\
  timers (snd (waitFor ns id timeoutMs w))
    = timers w ++ [mkTimer (nextHandle w) (now w + POLL_INTERVAL)
                     (CheckInterval ns id (now w)
                        (default (defaultTimeoutMs ns) timeoutMs))] /\
  now (snd (waitFor ns id timeoutMs w)) = now w /\
  nextHandle (snd (waitFor ns id timeoutMs w)) = S (nextHandle w) /\
  (forall ns' id',
     cache ns' (snd (waitFor ns id timeoutMs w)) !! id' = cache ns' w !! id').
Proof.
  intros Hc. unfold waitFor.
  destruct ns; simpl in *; rewrite Hc; repeat split; by intros [].
Qed.

Lemma waitForOutcome_waitFor ns : waitForOutcome ns = waitFor ns.
Proof. by destruct ns. Qed.

Lemma outcome_snoc_fresh p w e :
  outcome p w = None -> promise e = p ->
  head (filter (fun e' => promise e' = p) (settled w ++ [e])) = Some e.
Proof.
  unfold outcome. intros Hnone Hp.
  rewrite filter_app, head_app, Hnone.
  rewrite filter_cons, decide_True by done. done.
Qed.

(** C1. In either namespace, when the table already holds an outcome for
    the ID at the moment [waitForCtrlResult] / [waitForResResult] is called,
    the returned promise is resolved with that outcome by the first check,
    in the same millisecond, no polling interval is armed, and the entry is
    removed from the table. *)
Theorem wait_returns_cached_outcome_at_once
    (ns : Namespace) (id : Z) (timeoutMs : option Z) (r : CallbackResult)
    (w : World) :
  reachable w ->
  cache ns w !! id = Some r ->
  let p := fst (waitForOutcome ns id timeoutMs w) in
  let w' := snd (waitForOutcome ns id timeoutMs w) in
  outcome p w' = Some (mkSettlement p r (now w) (Some (ns, id))) /\
  timers w' = timers w /\
  now w' = now w /\
  cache ns w' = delete id (cache ns w) /\
  cache ns w' !! id = None.
Proof.
  intros Hr Hc. rewrite waitForOutcome_waitFor. simpl.
  destruct (waitFor_hit ns id timeoutMs w r Hc) as (-> & Hs & Ht & Hn & Hd).
  repeat split; try done.
  - unfold outcome. rewrite Hs. apply outcome_snoc_fresh; [|done].
    apply outcome_fresh; [by apply reachable_handlesBelow|done].
  - rewrite Hd. apply lookup_delete_eq.
Qed.

Lemma wait_returns_cached_outcome_at_once_witness :
  let w := play [StartListener;
                 Callback "Controller.Action.Succeeded"
                   (mkDetails (Some 42) None);
                 Sleep 10] initial in
  reachable w /\ cache Ctrl w !! 42 = Some succeeded /\
  outcome (fst (waitForOutcome Ctrl 42 (Some 30000) w))
    (snd (waitForOutcome Ctrl 42 (Some 30000) w))
  = Some (mkSettlement (fst (waitForOutcome Ctrl 42 (Some 30000) w))
            succeeded (now w) (Some (Ctrl, 42))).
Proof.
  intros w.
  assert (Hr : reachable w) by (by eexists).
  assert (Hc : cache Ctrl w !! 42 = Some succeeded)
    by (vm_compute; reflexivity).
  split; [exact Hr|]. split; [exact Hc|].
  apply (wait_returns_cached_outcome_at_once Ctrl 42 (Some 30000) succeeded w
           Hr Hc).
Defined.

(** ** Last write wins *)

Lemma writeNamespace_cache message details w ns ns' :
  cache ns' (writeNamespace message details w ns) =
    if decide (ns = ns') then
      match writeOf ns message details with
      | Some (id, r) => <[id := r]> (cache ns' w)
      | None => cache ns' w
      end
    else cache ns' w.
Proof.
  unfold writeNamespace.
  destruct (writeOf ns message details) as [[id r]|];
    destruct ns, ns'; done.
Qed.

Lemma onCallbackBody_cache message details w ns :
  cache ns (onCallbackBody message details w) =
    match writeOf ns message details with
    | Some (id, r) => <[id := r]> (cache ns w)
    | None => cache ns w
    end.
Proof.
  rewrite onCallbackBody_listenerSpec. unfold listenerSpec; simpl.
  rewrite !writeNamespace_cache. by destruct ns.
Qed.

Lemma onCallbackBody_now message details w :
  now (onCallbackBody message details w) = now w.
Proof.
  rewrite onCallbackBody_listenerSpec. unfold listenerSpec, writeNamespace.
  simpl. repeat case_match; done.
Qed.

(** ** One wait among the other timers *)

Lemma filter_comm {A} (P Q : A -> Prop) `{!forall x, Decision (P x)}
    `{!forall x, Decision (Q x)} (l : list A) :
  filter P (filter Q l) = filter Q (filter P l).
Proof.
  induction l as [|x l IH]; [done|].
  rewrite !filter_cons.
  destruct (decide (P x)), (decide (Q x)); rewrite ?filter_cons;
    rewrite ?decide_True, ?decide_False by done; by rewrite IH.
Qed.

Lemma filter_singleton_split {A} (P : A -> Prop) `{!forall x, Decision (P x)}
    (l : list A) (x : A) :
  filter P l = [x] ->
  exists l1 l2, l = l1 ++ x :: l2 /\
    Forall (fun y => ~ P y) l1 /\ Forall (fun y => ~ P y) l2.
Proof.
  induction l as [|y l IH]; [done|].
  rewrite filter_cons. destruct (decide (P y)) as [Hy|Hy].
  - intros [= -> Hl]. exists [], l. split; [done|]. split; [constructor|].
    apply Forall_forall. intros z Hz HP.
    by apply (filter_nil_not_elem_of P l z).
  - intros (l1 & l2 & -> & H1 & H2)%IH. exists (y :: l1), l2.
    split; [done|]. split; [by constructor|done].
Qed.

Lemma fire_mine_other h tm w :
  tid tm <> h -> mine h (fire tm w) = mine h w.
Proof.
  intros Hne. unfold mine.
  destruct (fire_timers tm w) as [->|[_ ->]]; [done|].
  rewrite filter_app, filter_cons, decide_False by done.
  by rewrite filter_nil, app_nil_r.
Qed.

Lemma outcome_snoc_other h w e :
  promise e <> h ->
  head (filter (fun e' => promise e' = h) (settled w ++ [e])) = outcome h w.
Proof.
  intros Hne. unfold outcome.
  rewrite filter_app, filter_cons, decide_False by done.
  by rewrite filter_nil, app_nil_r.
Qed.

Lemma outcome_snoc_stable h w e s :
  outcome h w = Some s ->
  head (filter (fun e' => promise e' = h) (settled w ++ [e])) = Some s.
Proof.
  unfold outcome. intros Hs. by rewrite filter_app, head_app, Hs.
Qed.

Lemma fire_outcome_other h tm w :
  tid tm <> h -> outcome h (fire tm w) = outcome h w.
Proof.
  intros Hne. unfold outcome at 1.
  destruct (fire_settled tm w) as [->|(v & hit & ->)]; [done|].
  by apply outcome_snoc_other.
Qed.

Lemma fire_outcome_stable h tm w s :
  outcome h w = Some s -> outcome h (fire tm w) = Some s.
Proof.
  intros Hs. unfold outcome at 1.
  destruct (fire_settled tm w) as [->|(v & hit & ->)]; [done|].
  by apply outcome_snoc_stable.
Qed.

(** A millisecond in which the interval of [h] is not due: only timers with
    other handles fire. *)
Lemma tickMs_inv_others (P : World -> Prop) (h : nat) (w : World) :
  Forall (fun tm => isDue (now w + 1) tm = false) (mine h w) ->
  P (withTimers (filter (fun tm => isDue (now w + 1) tm = false) (timers w))
       (withNow (now w + 1) w)) ->
  (forall tm w',
     tm ∈ timers w -> tid tm <> h -> isDue (now w + 1) tm = true ->
     P w' -> P (fire tm w')) ->
  P (tickMs w).
Proof.
  intros Hmine Hstart Hstep. apply tickMs_inv; [done|].
  intros tm w' Hin Hdue. apply Hstep; [done| |done].
  intros Hh. rewrite Forall_forall in Hmine.
  assert (tm ∈ mine h w) as Hm%Hmine by (by apply list_elem_of_filter).
  congruence.
Qed.

(** A millisecond in which the interval [tm] of [h] is due: the other due
    timers armed before it fire, then [tm], then those armed after it. *)
Lemma tickMs_inv_mine (P Q : World -> Prop) (h : nat) (tm : Timer) (w : World) :
  mine h w = [tm] ->
  isDue (now w + 1) tm = true ->
  P (withTimers (filter (fun tm' => isDue (now w + 1) tm' = false) (timers w))
       (withNow (now w + 1) w)) ->
  (forall tm' w',
     tm' ∈ timers w -> tid tm' <> h -> isDue (now w + 1) tm' = true ->
     P w' -> P (fire tm' w')) ->
  (forall w', P w' -> Q (fire tm w')) ->
  (forall tm' w',
     tm' ∈ timers w -> tid tm' <> h -> isDue (now w + 1) tm' = true ->
     Q w' -> Q (fire tm' w')) ->
  Q (tickMs w).
Proof.
  intros Hmine Hdue Hstart HP HPQ HQ.
  apply filter_singleton_split in Hmine as (l1 & l2 & Hl & H1 & H2).
  assert (Hd : filter (fun tm' => isDue (now w + 1) tm' = true) (timers w)
               = filter (fun tm' => isDue (now w + 1) tm' = true) l1
                 ++ tm :: filter (fun tm' => isDue (now w + 1) tm' = true) l2).
  { rewrite Hl, filter_app, filter_cons. by rewrite decide_True. }
  unfold tickMs. cbv zeta. rewrite Hd, foldl_app. simpl.
  apply foldl_fire_inv.
  - apply HPQ. apply foldl_fire_inv; [done|].
    intros tm' w' [Hd' Hin]%list_elem_of_In%list_elem_of_filter. apply HP.
    + rewrite Hl. apply elem_of_app. by left.
    + rewrite Forall_forall in H1. by apply H1.
    + done.
  - intros tm' w' [Hd' Hin]%list_elem_of_In%list_elem_of_filter. apply HQ.
    + rewrite Hl. apply elem_of_app. right. by right.
    + rewrite Forall_forall in H2. by apply H2.
    + done.
Qed.

Lemma mine_later h t w :
  mine h (withTimers (filter (fun tm => isDue t tm = false) (timers w))
            (withNow t w))
  = filter (fun tm => isDue t tm = false) (mine h w).
Proof. unfold mine. simpl. apply filter_comm. Qed.

(** ** Polling arithmetic *)

Lemma nextTick_bounds s t : t < nextTick s t <= t + POLL_INTERVAL.
Proof. tick_arith. Qed.

Lemma nextTick_stay s t :
  t + 1 < nextTick s t -> nextTick s (t + 1) = nextTick s t.
Proof. tick_arith. Qed.

Lemma nextTick_hit s t :
  nextTick s t = t + 1 -> nextTick s (t + 1) = t + 1 + POLL_INTERVAL.
Proof. tick_arith. Qed.

Lemma nextTick_le_deadline s t T :
  t < deadline s T -> nextTick s t <= deadline s T.
Proof. tick_arith. Qed.

Lemma nextTick_timeout s t T :
  t < deadline s T -> nextTick s t - s > T -> nextTick s t = deadline s T.
Proof. tick_arith. Qed.

Lemma nextTick_no_timeout s t T :
  nextTick s t - s <= T -> nextTick s t < deadline s T.
Proof. tick_arith. Qed.

Lemma deadline_bounds s T : T < deadline s T - s <= T + POLL_INTERVAL.
Proof. tick_arith. Qed.

Lemma nextTick_start s : nextTick s s = s + POLL_INTERVAL.
Proof. tick_arith. Qed.

(** ** A wait whose ID is never answered *)

Lemma fire_unanswered_other ns id s T h tm w :
  tid tm <> h ->
  unanswered ns id s T h w -> unanswered ns id s T h (fire tm w).
Proof.
  intros Hne (Hs & Hh & Hc & Hst). unfold unanswered, polling, timedOut in *.
  rewrite fire_now, fire_nextHandle, fire_mine_other, fire_outcome_other
    by done.
  repeat split; try done. by apply fire_cache_None.
Qed.

Lemma fire_poller_unanswered ns id s T h w :
  (h < nextHandle w)%nat ->
  cache ns w !! id = None ->
  mine h w = [] ->
  outcome h w = None ->
  s <= now w ->
  now w = nextTick s (now w - 1) ->
  now w - 1 < deadline s T ->
  unanswered ns id s T h (fire (poller ns id s T h (now w)) w).
Proof.
  intros Hh Hc Hm Ho Hs Hn Hd.
  unfold fire, checkIntervalBody; simpl. rewrite Hc.
  destruct (now w - s >? T) eqn:Hcmp.
  - apply Z.gtb_lt in Hcmp.
    assert (Hdl : now w = deadline s T).
    { rewrite Hn. apply nextTick_timeout; [done|]. rewrite <- Hn. lia. }
    unfold unanswered. simpl.
    split; [done|]. split; [done|]. split; [by destruct ns|].
    rewrite decide_False by lia. split; [done|].
    unfold outcome; simpl. rewrite <- Hdl.
    by apply outcome_snoc_fresh.
  - assert (Hle : now w - s <= T) by lia.
    assert (Hlt : now w < deadline s T).
    { rewrite Hn at 1. apply nextTick_no_timeout. rewrite <- Hn. lia. }
    unfold unanswered. simpl.
    split; [done|]. split; [done|]. split; [by destruct ns|].
    rewrite decide_True by done. split; [|done].
    unfold mine in *. simpl.
    rewrite filter_app, Hm, filter_cons, decide_True by done.
    simpl. unfold poller. do 2 f_equal.
    replace (now w) with (now w - 1 + 1) at 2 by lia.
    rewrite nextTick_hit; lia.
Qed.

Lemma tickMs_unanswered ns id s T h w :
  unanswered ns id s T h w -> unanswered ns id s T h (tickMs w).
Proof.
  intros (Hs & Hh & Hc & Hst).
  destruct (decide (now w < deadline s T)) as [Hlt|Hge].
  - destruct Hst as [Hm Ho].
    pose proof (nextTick_bounds s (now w)) as Hb.
    pose proof (nextTick_le_deadline s (now w) T Hlt) as Hle.
    set (tm := poller ns id s T h (nextTick s (now w))) in *.
    destruct (isDue (now w + 1) tm) eqn:Hdue.
    + assert (HD : nextTick s (now w) = now w + 1)
        by (unfold isDue in Hdue; simpl in Hdue; lia).
      apply (tickMs_inv_mine
               (fun w' => now w' = now w + 1 /\ (h < nextHandle w')%nat /\
                          cache ns w' !! id = None /\ mine h w' = [] /\
                          outcome h w' = None)
               (unanswered ns id s T h) h tm w); try done.
      * rewrite mine_later, Hm, filter_cons, decide_False by congruence.
        simpl. split; [done|]. split; [done|]. split; [by destruct ns|done].
      * intros tm' w' _ Hne _ (Hn & Hh' & Hc' & Hm' & Ho').
        rewrite fire_now, fire_nextHandle, fire_mine_other, fire_outcome_other
          by done.
        repeat split; try done. by apply fire_cache_None.
      * intros w' (Hn & Hh' & Hc' & Hm' & Ho').
        subst tm. rewrite HD, <- Hn.
        apply fire_poller_unanswered; try done.
        -- lia.
        -- rewrite Hn. replace (now w + 1 - 1) with (now w) by lia. done.
        -- rewrite Hn. lia.
      * intros tm' w' _ Hne _. by apply fire_unanswered_other.
    + assert (HD : now w + 1 < nextTick s (now w))
        by (unfold isDue in Hdue; simpl in Hdue; lia).
      apply (tickMs_inv_others (unanswered ns id s T h) h).
      * rewrite Hm. by apply Forall_singleton.
      * unfold unanswered, polling. rewrite mine_later, Hm. simpl.
        split; [lia|]. split; [done|]. split; [by destruct ns|].
        rewrite decide_True by lia.
        rewrite filter_cons, decide_True by done.
        rewrite nextTick_stay by done. done.
      * intros tm' w' _ Hne _. by apply fire_unanswered_other.
  - destruct Hst as [Hm Ho].
    apply (tickMs_inv_others (unanswered ns id s T h) h).
    + rewrite Hm. constructor.
    + unfold unanswered, timedOut. rewrite mine_later, Hm. simpl.
      split; [lia|]. split; [done|]. split; [by destruct ns|].
      by rewrite decide_False by lia.
    + intros tm' w' _ Hne _. by apply fire_unanswered_other.
Qed.

(** ** What the inputs do to the timers, the log and the clock *)

Lemma tickMs_now w : now (tickMs w) = now w + 1.
Proof.
  apply (tickMs_inv (fun w' => now w' = now w + 1)); [done|].
  intros tm w' _ _ <-. apply fire_now.
Qed.

Lemma advance_now ms w : now (advance ms w) = now w + Z.of_nat (Z.to_nat ms).
Proof.
  unfold advance. induction (Z.to_nat ms) as [|n IH]; simpl; [lia|].
  rewrite tickMs_now, IH. lia.
Qed.

Lemma writeNamespace_shape message details w ns :
  now (writeNamespace message details w ns) = now w /\
  settled (writeNamespace message details w ns) = settled w /\
  (nextHandle w <= nextHandle (writeNamespace message details w ns))%nat /\
  exists new,
    timers (writeNamespace message details w ns) = timers w ++ new /\
    Forall (fun tm =>
              (nextHandle w <= tid tm)%nat /\
              due tm = now w + CACHE_CLEANUP_TIMEOUT /\
              exists ns' id r,
                writeOf ns' message details = Some (id, r) /\
                task tm = CacheDelete ns' id) new.
Proof.
  unfold writeNamespace.
  destruct (writeOf ns message details) as [[id r]|] eqn:Hw.
  - split; [by destruct ns|]. split; [by destruct ns|].
    split; [destruct ns; simpl; lia|].
    eexists [_]. split; [by destruct ns|].
    apply Forall_singleton. destruct ns; simpl.
    all: split; [lia|]; split; [done|]; by do 3 eexists.
  - split; [done|]. split; [done|]. split; [lia|].
    exists []. split; [by rewrite app_nil_r|constructor].
Qed.

Lemma onCallbackBody_shape message details w :
  now (onCallbackBody message details w) = now w /\
  settled (onCallbackBody message details w) = settled w /\
  (nextHandle w <= nextHandle (onCallbackBody message details w))%nat /\
  exists new,
    timers (onCallbackBody message details w) = timers w ++ new /\
    Forall (fun tm =>
              (nextHandle w <= tid tm)%nat /\
              due tm = now w + CACHE_CLEANUP_TIMEOUT /\
              exists ns' id r,
                writeOf ns' message details = Some (id, r) /\
                task tm = CacheDelete ns' id) new.
Proof.
  rewrite onCallbackBody_listenerSpec. unfold listenerSpec; simpl.
  destruct (writeNamespace_shape message details w Ctrl)
    as (Hn1 & Hs1 & Hh1 & new1 & Ht1 & Hf1).
  destruct (writeNamespace_shape message details
              (writeNamespace message details w Ctrl) Res)
    as (Hn2 & Hs2 & Hh2 & new2 & Ht2 & Hf2).
  split; [congruence|]. split; [congruence|]. split; [lia|].
  exists (new1 ++ new2). split; [by rewrite Ht2, Ht1, app_assoc|].
  apply Forall_app; split; [done|].
  eapply Forall_impl; [exact Hf2|]. simpl.
  intros tm (Hle & Hdue & Hex). rewrite Hn1 in Hdue.
  split; [lia|done].
Qed.

Lemma waitFor_shape ns id timeoutMs w :
  now (snd (waitFor ns id timeoutMs w)) = now w /\
  nextHandle (snd (waitFor ns id timeoutMs w)) = S (nextHandle w) /\
  cache ns (snd (waitFor ns id timeoutMs w)) !! id = None /\
  (forall ns' id', (ns', id') <> (ns, id) ->
     cache ns' (snd (waitFor ns id timeoutMs w)) !! id' = cache ns' w !! id') /\
  (settled (snd (waitFor ns id timeoutMs w)) = settled w \/
   exists v, settled (snd (waitFor ns id timeoutMs w))
      = settled w ++ [mkSettlement (nextHandle w) v (now w) (Some (ns, id))]) /\
  (timers (snd (waitFor ns id timeoutMs w)) = timers w \/
   timers (snd (waitFor ns id timeoutMs w))
     = timers w ++ [poller ns id (now w)
                      (default (defaultTimeoutMs ns) timeoutMs)
                      (nextHandle w) (now w + POLL_INTERVAL)]).
Proof.
  destruct (cache ns w !! id) as [r|] eqn:Hc.
  - destruct (waitFor_hit ns id timeoutMs w r Hc) as (_ & Hs & Ht & Hn & Hd).
    split; [done|]. split; [unfold waitFor; destruct ns; simpl in *; by rewrite Hc|].
    split; [rewrite Hd; apply lookup_delete_eq|].
    split; [|split; [right; by exists r|by left]].
    intros ns' id' Hne. destruct (decide (ns' = ns)) as [->|Hns].
    + rewrite Hd. apply lookup_delete_ne. congruence.
    + unfold waitFor. destruct ns, ns'; simpl in *; rewrite Hc; done.
  - destruct (waitFor_miss ns id timeoutMs w Hc)
      as (_ & Hs & Ht & Hn & Hh & Hcache).
    split; [done|]. split; [done|]. split; [by rewrite Hcache|].
    split; [intros; apply Hcache|]. split; [by left|by right].
Qed.

Lemma mine_app_fresh h (l new : list Timer) :
  Forall (fun tm => tid tm <> h) new ->
  filter (fun tm => tid tm = h) (l ++ new) = filter (fun tm => tid tm = h) l.
Proof.
  intros Hnew. rewrite filter_app, (filter_none _ new), app_nil_r; [done|].
  eapply Forall_impl; [exact Hnew|]. simpl. tauto.
Qed.

Lemma onCallbackBody_mine h message details w :
  (h < nextHandle w)%nat ->
  mine h (onCallbackBody message details w) = mine h w.
Proof.
  intros Hh.
  destruct (onCallbackBody_shape message details w)
    as (_ & _ & _ & new & Ht & Hf).
  unfold mine. rewrite Ht. apply mine_app_fresh.
  eapply Forall_impl; [exact Hf|]. simpl. intros tm (Hle & _). lia.
Qed.

Lemma onCallbackBody_outcome h message details w :
  outcome h (onCallbackBody message details w) = outcome h w.
Proof.
  destruct (onCallbackBody_shape message details w) as (_ & Hs & _).
  unfold outcome. by rewrite Hs.
Qed.

Lemma waitFor_mine h ns id timeoutMs w :
  (h < nextHandle w)%nat ->
  mine h (snd (waitFor ns id timeoutMs w)) = mine h w.
Proof.
  intros Hh.
  destruct (waitFor_shape ns id timeoutMs w)
    as (_ & _ & _ & _ & _ & [Ht|Ht]); unfold mine; rewrite Ht; [done|].
  apply mine_app_fresh, Forall_singleton. simpl. lia.
Qed.

Lemma waitFor_outcome h ns id timeoutMs w :
  (h < nextHandle w)%nat ->
  outcome h (snd (waitFor ns id timeoutMs w)) = outcome h w.
Proof.
  intros Hh.
  destruct (waitFor_shape ns id timeoutMs w)
    as (_ & _ & _ & _ & [Hs|[v Hs]] & _); unfold outcome at 1; rewrite Hs;
    [done|].
  apply outcome_snoc_other. simpl. lia.
Qed.

Lemma unanswered_transfer ns id s T h w w' :
  now w' = now w ->
  (nextHandle w <= nextHandle w')%nat ->
  cache ns w' !! id = None ->
  mine h w' = mine h w ->
  outcome h w' = outcome h w ->
  unanswered ns id s T h w -> unanswered ns id s T h w'.
Proof.
  intros Hn Hh Hc Hm Ho (Hs & Hlt & _ & Hst).
  unfold unanswered, polling, timedOut in *. rewrite Hn, Hm, Ho.
  split; [done|]. split; [lia|]. done.
Qed.

Lemma onCallbackBody_unanswered ns id s T h message details w :
  (forall r, writeOf ns message details <> Some (id, r)) ->
  unanswered ns id s T h w ->
  unanswered ns id s T h (onCallbackBody message details w).
Proof.
  intros Hnw Hu. pose proof Hu as (_ & Hh & Hc & _).
  destruct (onCallbackBody_shape message details w) as (Hn & _ & Hle & _).
  apply (unanswered_transfer ns id s T h w); try done.
  - rewrite onCallbackBody_cache.
    destruct (writeOf ns message details) as [[id' r]|] eqn:Hw; [|done].
    rewrite lookup_insert_ne; [done|]. intros ->. by apply (Hnw r).
  - by apply onCallbackBody_mine.
  - apply onCallbackBody_outcome.
Qed.

Lemma waitFor_unanswered ns id s T h ns' id' timeoutMs w :
  unanswered ns id s T h w ->
  unanswered ns id s T h (snd (waitFor ns' id' timeoutMs w)).
Proof.
  intros Hu. pose proof Hu as (_ & Hh & Hc & _).
  destruct (waitFor_shape ns' id' timeoutMs w)
    as (Hn & Hnh & Hnone & Hother & _).
  apply (unanswered_transfer ns id s T h w); try done.
  - lia.
  - destruct (decide ((ns, id) = (ns', id'))) as [[= -> ->]|Hne]; [done|].
    by rewrite Hother.
  - by apply waitFor_mine.
  - by apply waitFor_outcome.
Qed.

Lemma step_unanswered ns id s T h i w :
  noWrite ns id i ->
  unanswered ns id s T h w -> unanswered ns id s T h (step i w).
Proof.
  intros Hi Hu. destruct i; simpl in *.
  - unfold startGlobalCallbackListener.
    destruct (globalListenerStarted w); [done|].
    by apply (unanswered_transfer ns id s T h w); try apply Hu.
  - apply emit_inv; [done|]. intros w'. by apply onCallbackBody_unanswered.
  - by apply waitFor_unanswered.
  - by apply waitFor_unanswered.
  - apply advance_inv; [done|]. intros w'. apply tickMs_unanswered.
Qed.

Lemma play_unanswered ns id s T h l w :
  Forall (noWrite ns id) l ->
  unanswered ns id s T h w -> unanswered ns id s T h (play l w).
Proof.
  intros Hl Hu. apply play_inv; [done|].
  intros i w' Hin. apply step_unanswered.
  rewrite Forall_forall in Hl. by apply Hl, list_elem_of_In.
Qed.

Lemma mine_fresh h w :
  handlesBelow w -> (nextHandle w <= h)%nat -> mine h w = [].
Proof.
  intros [Ht _] Hle. unfold mine. apply filter_none.
  eapply Forall_impl; [exact Ht|]. simpl. lia.
Qed.

(** The state right after a wait that found no entry. *)
Lemma waitFor_starts_unanswered ns id timeoutMs w :
  handlesBelow w ->
  cache ns w !! id = None ->
  0 <= default (defaultTimeoutMs ns) timeoutMs ->
  unanswered ns id (now w) (default (defaultTimeoutMs ns) timeoutMs)
    (nextHandle w) (snd (waitFor ns id timeoutMs w)).
Proof.
  intros Hw Hc HT.
  destruct (waitFor_miss ns id timeoutMs w Hc)
    as (_ & Hs & Ht & Hn & Hh & Hcache).
  pose proof (deadline_bounds (now w) (default (defaultTimeoutMs ns) timeoutMs)).
  unfold unanswered, polling. rewrite Hn, Hh, Hcache.
  split; [lia|]. split; [lia|]. split; [done|].
  rewrite decide_True by lia. split.
  - unfold mine. rewrite Ht, filter_app.
    fold (mine (nextHandle w) w). rewrite mine_fresh by done.
    rewrite filter_cons, decide_True by done.
    by rewrite nextTick_start.
  - unfold outcome. rewrite Hs. by apply outcome_fresh.
Qed.

(** C3. In either namespace, a wait for an ID that has no entry when the
    wait starts and that the listener never writes afterwards is resolved
    with [failed], by the timeout branch, at the first polling tick more than
    [T] after the start: later than [T] and at most [T] plus one polling
    interval of 50 ms after the start.  Until that tick the promise is
    pending. *)
Theorem unanswered_wait_fails_at_deadline
    (ns : Namespace) (id : Z) (timeoutMs : option Z) (l : list Input)
    (w0 : World) :
  let T := default (defaultTimeoutMs ns) timeoutMs in
  let s := now w0 in
  let h := fst (waitForOutcome ns id timeoutMs w0) in
  let w := play l (snd (waitForOutcome ns id timeoutMs w0)) in
  reachable w0 ->
  cache ns w0 !! id = None ->
  0 <= T ->
  Forall (noWrite ns id) l ->
  (now w < deadline s T -> outcome h w = None) /\
  (deadline s T <= now w ->
   outcome h w = Some (mkSettlement h failed (deadline s T) None)) /\
  s + T < deadline s T <= s + T + 50.
Proof.
  intros T s h w Hr Hc HT Hl. subst h w. rewrite waitForOutcome_waitFor.
  destruct (waitFor_miss ns id timeoutMs w0 Hc) as (-> & _).
  pose proof (reachable_handlesBelow w0 Hr) as Hw0.
  pose proof (waitFor_starts_unanswered ns id timeoutMs w0 Hw0 Hc HT) as Hu.
  apply (play_unanswered _ _ _ _ _ l) in Hu; [|done].
  destruct Hu as (_ & _ & _ & Hst).
  split; [|split].
  - intros Hlt. fold T s in Hst. rewrite decide_True in Hst by done.
    apply Hst.
  - intros Hge. fold T s in Hst. rewrite decide_False in Hst by lia.
    apply Hst.
  - pose proof (deadline_bounds s T). unfold POLL_INTERVAL in *. lia.
Qed.

Lemma unanswered_wait_fails_at_deadline_witness :
  let w0 := play [StartListener] initial in
  outcome (fst (waitForOutcome Ctrl 7 (Some 200) w0))
    (play [Sleep 250] (snd (waitForOutcome Ctrl 7 (Some 200) w0)))
  = Some (mkSettlement (fst (waitForOutcome Ctrl 7 (Some 200) w0)) failed
            (deadline (now w0) 200) None).
Proof.
  intros w0.
  refine (proj1 (proj2
    (unanswered_wait_fails_at_deadline Ctrl 7 (Some 200) [Sleep 250] w0
       _ _ _ _)) _).
  - by exists [StartListener].
  - reflexivity.
  - simpl. lia.
  - repeat constructor.
  - vm_compute. discriminate.
Defined.

(** ** Bounded retention *)

Lemma fire_timers_incl tm tm' w : tm' ∈ timers w -> tm' ∈ timers (fire tm w).
Proof.
  intros Hin. destruct (fire_timers tm w) as [->|[_ ->]]; [done|].
  apply elem_of_app. by left.
Qed.

Lemma tickMs_keeps_later tm w :
  tm ∈ timers w -> isDue (now w + 1) tm = false -> tm ∈ timers (tickMs w).
Proof.
  intros Hin Hdue. apply (tickMs_inv (fun w' => tm ∈ timers w')).
  - simpl. by apply list_elem_of_filter.
  - intros tm' w' _ _. apply fire_timers_incl.
Qed.

Lemma foldl_fire_elem (Q : World -> Prop) (l : list Timer) (tm : Timer)
    (w : World) :
  tm ∈ l ->
  (forall w', Q (fire tm w')) ->
  (forall tm' w', Q w' -> Q (fire tm' w')) ->
  Q (foldl (fun acc tm' => fire tm' acc) w l).
Proof.
  intros Hin Hfire Hkeep. revert w.
  induction l as [|x l IH]; intros w; [by apply elem_of_nil in Hin|].
  simpl. apply elem_of_cons in Hin as [<-|Hin].
  - apply foldl_fire_inv; [apply Hfire|]. intros tm' w' _. apply Hkeep.
  - by apply IH.
Qed.

Lemma tickMs_timersAhead w : timersAhead (tickMs w).
Proof.
  apply (tickMs_inv (fun w' => now w' = now w + 1 /\ timersAhead w')).
  - split; [done|]. unfold timersAhead. simpl.
    apply Forall_forall. intros tm [Hd _]%list_elem_of_filter.
    unfold isDue in Hd. lia.
  - intros tm w' _ _ [Hn Ha]. rewrite fire_now. split; [done|].
    unfold timersAhead in *. rewrite fire_now.
    destruct (fire_timers tm w') as [->|[_ ->]]; [done|].
    apply Forall_app; split; [done|]. apply Forall_singleton; simpl.
    unfold POLL_INTERVAL. lia.
Qed.

Lemma step_timersAhead i w : timersAhead w -> timersAhead (step i w).
Proof.
  intros Hw. destruct i; simpl.
  - unfold startGlobalCallbackListener. by destruct (globalListenerStarted w).
  - apply emit_inv; [done|]. intros w' Hw'. unfold timersAhead in *.
    destruct (onCallbackBody_shape message details w')
      as (-> & _ & _ & new & -> & Hf).
    apply Forall_app; split; [done|].
    eapply Forall_impl; [exact Hf|]. simpl.
    intros tm (_ & -> & _). unfold CACHE_CLEANUP_TIMEOUT. lia.
  - unfold timersAhead in *.
    destruct (waitFor_shape Ctrl ctrlId timeoutMs w)
      as (Hn & _ & _ & _ & _ & [Ht|Ht]);
      unfold waitForCtrlResult; rewrite Hn, Ht; [done|].
    apply Forall_app; split; [done|]. apply Forall_singleton; simpl.
    unfold POLL_INTERVAL. lia.
  - unfold timersAhead in *.
    destruct (waitFor_shape Res resId timeoutMs w)
      as (Hn & _ & _ & _ & _ & [Ht|Ht]);
      unfold waitForResResult; rewrite Hn, Ht; [done|].
    apply Forall_app; split; [done|]. apply Forall_singleton; simpl.
    unfold POLL_INTERVAL. lia.
  - apply advance_inv; [done|]. intros w' _. apply tickMs_timersAhead.
Qed.

Lemma reachable_timersAhead w : reachable w -> timersAhead w.
Proof.
  intros [l ->]. apply play_inv; [constructor|].
  intros i w' _. apply step_timersAhead.
Qed.

Lemma tickMs_sweptBy ns id D w : sweptBy ns id D w -> sweptBy ns id D (tickMs w).
Proof.
  intros [Hnone|(tm & Hin & Htask & Hdue)].
  - left. apply (tickMs_inv (fun w' => cache ns w' !! id = None)).
    + by destruct ns.
    + intros tm w' _ _. apply fire_cache_None.
  - destruct (isDue (now w + 1) tm) eqn:Hd.
    + left. unfold tickMs. cbv zeta.
      apply (foldl_fire_elem (fun w' => cache ns w' !! id = None) _ tm).
      * by apply list_elem_of_filter.
      * intros w'. unfold fire. rewrite Htask.
        destruct ns; simpl; apply lookup_delete_eq.
      * intros tm' w'. apply fire_cache_None.
    + right. exists tm. split; [by apply tickMs_keeps_later|done].
Qed.

Lemma step_sweptBy ns id D i w :
  noWrite ns id i -> sweptBy ns id D w -> sweptBy ns id D (step i w).
Proof.
  intros Hi Hw. destruct i; simpl in *.
  - unfold startGlobalCallbackListener.
    destruct (globalListenerStarted w); [done|].
    destruct Hw as [Hnone|Hex]; [left; by destruct ns|by right].
  - apply emit_inv; [done|]. intros w' Hw'.
    assert (Hc : cache ns (onCallbackBody message details w') !! id
                 = cache ns w' !! id).
    { rewrite onCallbackBody_cache.
      destruct (writeOf ns message details) as [[id' r]|] eqn:Hwr; [|done].
      rewrite lookup_insert_ne; [done|]. intros ->. by apply (Hi r). }
    destruct Hw' as [Hnone|(tm & Hin & Htask & Hdue)].
    + left. by rewrite Hc.
    + right. exists tm. split; [|done].
      destruct (onCallbackBody_shape message details w')
        as (_ & _ & _ & new & -> & _).
      apply elem_of_app. by left.
  - destruct (waitFor_shape Ctrl ctrlId timeoutMs w)
      as (_ & _ & Hnone & Hother & _ & Ht).
    unfold waitForCtrlResult.
    destruct (decide ((ns, id) = (Ctrl, ctrlId))) as [[= -> ->]|Hne];
      [by left|].
    destruct Hw as [Hn|(tm & Hin & Htask & Hdue)].
    + left. by rewrite Hother.
    + right. exists tm. split; [|done].
      destruct Ht as [->| ->]; [done|]. apply elem_of_app. by left.
  - destruct (waitFor_shape Res resId timeoutMs w)
      as (_ & _ & Hnone & Hother & _ & Ht).
    unfold waitForResResult.
    destruct (decide ((ns, id) = (Res, resId))) as [[= -> ->]|Hne];
      [by left|].
    destruct Hw as [Hn|(tm & Hin & Htask & Hdue)].
    + left. by rewrite Hother.
    + right. exists tm. split; [|done].
      destruct Ht as [->| ->]; [done|]. apply elem_of_app. by left.
  - apply advance_inv; [done|]. intros w'. apply tickMs_sweptBy.
Qed.

Lemma play_sweptBy ns id D l w :
  Forall (noWrite ns id) l -> sweptBy ns id D w -> sweptBy ns id D (play l w).
Proof.
  intros Hl Hw. apply play_inv; [done|].
  intros i w' Hin. apply step_sweptBy.
  rewrite Forall_forall in Hl. by apply Hl, list_elem_of_In.
Qed.

Lemma sweptBy_gone ns id D w :
  timersAhead w -> D <= now w -> sweptBy ns id D w -> cache ns w !! id = None.
Proof.
  intros Ha Hle [Hnone|(tm & Hin & _ & Hdue)]; [done|].
  unfold timersAhead in Ha. rewrite Forall_forall in Ha.
  apply Ha in Hin. lia.
Qed.

(** The listener's write arms the deferred deletion of the key it wrote. *)
Lemma onCallbackBody_arms ns id r message details w :
  writeOf ns message details = Some (id, r) ->
  exists tm, tm ∈ timers (onCallbackBody message details w) /\
    task tm = CacheDelete ns id /\
    due tm = now w + CACHE_CLEANUP_TIMEOUT.
Proof.
  intros Hw. rewrite onCallbackBody_listenerSpec.
  unfold listenerSpec, writeNamespace; simpl.
  destruct ns; rewrite Hw.
  - eexists (mkTimer _ _ _). split; [|done].
    destruct (writeOf Res message details) as [[id' r']|]; simpl.
    + apply elem_of_app. left. apply elem_of_app. right. by left.
    + apply elem_of_app. right. by left.
  - destruct (writeOf Ctrl message details) as [[id' r']|];
      (eexists (mkTimer _ _ _); split; [apply elem_of_app; right; by left|done]).
Qed.

Lemma tickMs_pendingUntilDue tm w :
  pendingUntilDue tm w -> pendingUntilDue tm (tickMs w).
Proof.
  unfold pendingUntilDue. rewrite tickMs_now. intros Hp Hlt.
  apply tickMs_keeps_later; [apply Hp; lia|].
  unfold isDue. lia.
Qed.

Lemma step_pendingUntilDue tm i w :
  pendingUntilDue tm w -> pendingUntilDue tm (step i w).
Proof.
  intros Hw. destruct i; simpl.
  - unfold startGlobalCallbackListener. by destruct (globalListenerStarted w).
  - apply emit_inv; [done|]. intros w' Hw'. unfold pendingUntilDue in *.
    destruct (onCallbackBody_shape message details w')
      as (-> & _ & _ & new & -> & _).
    intros Hlt. apply elem_of_app. left. by apply Hw'.
  - unfold pendingUntilDue in *.
    destruct (waitFor_shape Ctrl ctrlId timeoutMs w)
      as (Hn & _ & _ & _ & _ & [Ht|Ht]);
      unfold waitForCtrlResult; rewrite Hn, Ht; [done|].
    intros Hlt. apply elem_of_app. left. by apply Hw.
  - unfold pendingUntilDue in *.
    destruct (waitFor_shape Res resId timeoutMs w)
      as (Hn & _ & _ & _ & _ & [Ht|Ht]);
      unfold waitForResResult; rewrite Hn, Ht; [done|].
    intros Hlt. apply elem_of_app. left. by apply Hw.
  - apply advance_inv; [done|]. intros w'. apply tickMs_pendingUntilDue.
Qed.

(** C6. In either namespace, the listener's write of an outcome for an ID
    arms a deferred deletion of exactly that key, 30000 ms ahead.  Whatever
    happens in between, whether or not any wait ever looks for the ID, the
    table holds no entry for the ID once the clock reaches 30000 ms after the
    write; and if the listener does not write the ID again, none at any later
    time either. *)
Theorem entry_removed_within_retention_window
    (ns : Namespace) (id : Z) (r : CallbackResult)
    (message : string) (details : MaaCallbackDetails)
    (l : list Input) (w : World) :
  let w1 := emit message details w in
  let w2 := play l w1 in
  reachable w ->
  globalListenerStarted w = true ->
  writeOf ns message details = Some (id, r) ->
  cache ns w1 !! id = Some r /\
  (exists tm, tm ∈ timers w1 /\ task tm = CacheDelete ns id /\
              due tm = now w + CACHE_CLEANUP_TIMEOUT) /\
  (now w2 < now w + CACHE_CLEANUP_TIMEOUT ->
   cache ns (advance (now w + CACHE_CLEANUP_TIMEOUT - now w2) w2) !! id
     = None) /\
  (Forall (noWrite ns id) l ->
   now w + CACHE_CLEANUP_TIMEOUT <= now w2 -> cache ns w2 !! id = None).
Proof.
  intros w1 w2 Hr Hg Hw.
  assert (Hw1 : w1 = onCallbackBody message details w) by (by apply emit_once).
  assert (Hr2 : reachable w2).
  { apply reachable_play. by apply (reachable_step (Callback message details)). }
  destruct (onCallbackBody_arms ns id r message details w Hw)
    as (tm & Hin & Htask & Hdue).
  rewrite <- Hw1 in Hin.
  split; [|split; [|split]].
  - rewrite Hw1, onCallbackBody_cache, Hw. apply lookup_insert_eq.
  - by exists tm.
  - intros Hearly.
    assert (Hp : pendingUntilDue tm w2).
    { apply play_inv; [by intros _|].
      intros i w' _. apply step_pendingUntilDue. }
    apply (sweptBy_gone ns id (now w + CACHE_CLEANUP_TIMEOUT)).
    + by apply reachable_timersAhead,
        (reachable_step (Sleep (now w + CACHE_CLEANUP_TIMEOUT - now w2))).
    + rewrite advance_now. lia.
    + apply advance_inv; [|intros w'; apply tickMs_sweptBy].
      right. exists tm. split; [apply Hp; lia|]. split; [done|lia].
  - intros Hl Hlate.
    apply (sweptBy_gone ns id (now w + CACHE_CLEANUP_TIMEOUT)); [|done|].
    + by apply reachable_timersAhead.
    + apply play_sweptBy; [done|]. right. exists tm.
      split; [done|]. split; [done|lia].
Qed.

Lemma entry_removed_within_retention_window_witness :
  let w := play [StartListener; Sleep 5] initial in
  let w1 := emit "Resource.Loading.Failed" (mkDetails None (Some 9)) w in
  cache Res w1 !! 9 = Some failed /\
  cache Res (play [WaitCtrl 9 None; Sleep 30000] w1) !! 9 = None.
Proof.
  intros w w1.
  assert (Hr : reachable w) by (by exists [StartListener; Sleep 5]).
  destruct (entry_removed_within_retention_window Res 9 failed
              "Resource.Loading.Failed" (mkDetails None (Some 9))
              [WaitCtrl 9 None; Sleep 30000] w Hr eq_refl eq_refl)
    as (Hc & _ & _ & Hgone).
  split; [exact Hc|]. apply Hgone.
  - repeat constructor.
  - vm_compute. discriminate.
Defined.

(** ** Timers that leave a key alone *)

Lemma fire_calm ns id ho D tm w :
  calmTimer ns id ho D tm -> calm ns id ho D w -> calm ns id ho D (fire tm w).
Proof.
  intros Htm Hw. unfold calm in *.
  destruct (fire_timers tm w) as [->|[(ns' & id' & s & T & Htask) ->]]; [done|].
  apply Forall_app; split; [done|]. apply Forall_singleton.
  intros Hkey. simpl in *. destruct (Htm Hkey) as [Hh|[Hdel _]]; [by left|].
  congruence.
Qed.

Lemma tickMs_calm ns id ho D w : calm ns id ho D w -> calm ns id ho D (tickMs w).
Proof.
  intros Hw. apply tickMs_inv.
  - unfold calm. simpl. by apply Forall_filter_keep.
  - intros tm w' Hin _. apply fire_calm.
    unfold calm in Hw. rewrite Forall_forall in Hw. by apply Hw.
Qed.

Lemma calm_due_other ns id ho D w tm t :
  calm ns id ho D w -> tm ∈ timers w -> isDue t tm = true -> t <= D ->
  Some (tid tm) <> ho -> taskKey (task tm) <> (ns, id).
Proof.
  intros Hw Hin Hdue Hle Hne Hkey.
  unfold calm in Hw. rewrite Forall_forall in Hw.
  destruct (Hw tm Hin Hkey) as [Hh|[_ Hlate]]; [done|].
  unfold isDue in Hdue. lia.
Qed.

Lemma tickMs_cache_frame ns id w :
  (forall tm, tm ∈ timers w -> isDue (now w + 1) tm = true ->
              taskKey (task tm) <> (ns, id)) ->
  cache ns (tickMs w) !! id = cache ns w !! id.
Proof.
  intros Hfree.
  apply (tickMs_inv (fun w' => cache ns w' !! id = cache ns w !! id)).
  - by destruct ns.
  - intros tm w' Hin Hdue <-. apply fire_cache_other. by apply Hfree.
Qed.

Lemma tickMs_nextHandle w : nextHandle (tickMs w) = nextHandle w.
Proof.
  apply (tickMs_inv (fun w' => nextHandle w' = nextHandle w)); [done|].
  intros tm w' _ _ <-. apply fire_nextHandle.
Qed.

Lemma onCallbackBody_calm ns id ho D message details w :
  (forall r, writeOf ns message details <> Some (id, r)) \/
    D < now w + CACHE_CLEANUP_TIMEOUT ->
  calm ns id ho D w -> calm ns id ho D (onCallbackBody message details w).
Proof.
  intros Hor Hw. unfold calm in *.
  destruct (onCallbackBody_shape message details w)
    as (_ & _ & _ & new & -> & Hf).
  apply Forall_app; split; [done|].
  eapply Forall_impl; [exact Hf|]. simpl.
  intros tm (_ & Hdue & ns' & id' & r & Hwr & Htask) Hkey.
  rewrite Htask in Hkey. simpl in Hkey. injection Hkey as -> ->.
  destruct Hor as [Hnw|Hlate]; [by destruct (Hnw r)|].
  right. split; [done|lia].
Qed.

Lemma waitFor_calm ns id ho D ns' id' timeoutMs w :
  (ns, id) <> (ns', id') ->
  calm ns id ho D w -> calm ns id ho D (snd (waitFor ns' id' timeoutMs w)).
Proof.
  intros Hne Hw. unfold calm in *.
  destruct (waitFor_shape ns' id' timeoutMs w)
    as (_ & _ & _ & _ & _ & [->| ->]); [done|].
  apply Forall_app; split; [done|]. apply Forall_singleton.
  intros Hkey. simpl in Hkey. congruence.
Qed.

Lemma onCallbackBody_cache_frame ns id message details w :
  (forall r, writeOf ns message details <> Some (id, r)) ->
  cache ns (onCallbackBody message details w) !! id = cache ns w !! id.
Proof.
  intros Hnw. rewrite onCallbackBody_cache.
  destruct (writeOf ns message details) as [[id' r]|] eqn:Hwr; [|done].
  rewrite lookup_insert_ne; [done|]. intros ->. by apply (Hnw r).
Qed.

(** ** A wait whose ID is answered while it polls *)

Lemma cacheDelete_outcome h ns id w :
  outcome h (cacheDelete ns id w) = outcome h w.
Proof. by destruct ns. Qed.

Lemma tickMs_answered ns id s T h r D w :
  answered ns id s T h r D w -> answered ns id s T h r D (tickMs w).
Proof.
  intros (Hh & Hst). destruct (decide (now w < D)) as [Hlt|Hge].
  - destruct Hst as (Hc & Hm & Ho & Hcalm).
    assert (Hfree : forall tm', tm' ∈ timers w -> tid tm' <> h ->
              isDue (now w + 1) tm' = true -> taskKey (task tm') <> (ns, id)).
    { intros tm' Hin Hne Hdue.
      apply (calm_due_other ns id (Some h) D w tm' (now w + 1)); try done.
      - lia.
      - congruence. }
    assert (Hct : forall tm', tm' ∈ timers w -> calmTimer ns id (Some h) D tm').
    { unfold calm in Hcalm. by rewrite Forall_forall in Hcalm. }
    destruct (isDue (now w + 1) (poller ns id s T h D)) eqn:Hdue.
    + assert (HD : D = now w + 1)
        by (unfold isDue in Hdue; simpl in Hdue; lia).
      cut (now (tickMs w) = D /\ (h < nextHandle (tickMs w))%nat /\
           outcome h (tickMs w) = Some (mkSettlement h r D (Some (ns, id)))).
      { intros (Hn & Hh' & Ho'). split; [done|].
        by rewrite decide_False by lia. }
      apply (tickMs_inv_mine
               (fun w' => now w' = D /\ (h < nextHandle w')%nat /\
                          cache ns w' !! id = Some r /\ mine h w' = [] /\
                          outcome h w' = None)
               (fun w' => now w' = D /\ (h < nextHandle w')%nat /\
                          outcome h w' = Some (mkSettlement h r D (Some (ns, id))))
               h (poller ns id s T h D) w); try done.
      * rewrite mine_later, Hm, filter_cons, decide_False by congruence.
        simpl. split; [lia|]. split; [done|]. split; [by destruct ns|done].
      * intros tm' w' Hin Hne Hd' (Hn & Hh' & Hc' & Hm' & Ho').
        rewrite fire_now, fire_nextHandle, fire_mine_other, fire_outcome_other
          by done.
        rewrite fire_cache_other by auto. done.
      * intros w' (Hn & Hh' & Hc' & Hm' & Ho').
        unfold fire, checkIntervalBody; simpl. rewrite Hc'.
        split; [by destruct ns|]. split; [by destruct ns|].
        unfold outcome; simpl.
        replace (settled (cacheDelete ns id w')) with (settled w')
          by (by destruct ns).
        replace (now (cacheDelete ns id w')) with D by (by destruct ns).
        by apply outcome_snoc_fresh.
      * intros tm' w' _ _ _ (Hn & Hh' & Ho').
        rewrite fire_now, fire_nextHandle. split; [done|]. split; [done|].
        by apply fire_outcome_stable.
    + assert (HD : now w + 1 < D)
        by (unfold isDue in Hdue; simpl in Hdue; lia).
      apply (tickMs_inv_others
               (fun w' => now w' = now w + 1 /\ answered ns id s T h r D w') h).
      * rewrite Hm. by apply Forall_singleton.
      * simpl. split; [done|]. split; [done|]. simpl.
        rewrite decide_True by lia.
        split; [by destruct ns|]. split; [|split; [done|]].
        -- rewrite mine_later, Hm, filter_cons. by rewrite decide_True.
        -- unfold calm in *. simpl. by apply Forall_filter_keep.
      * intros tm' w' Hin Hne Hd' (Hn & Hh' & Hst').
        rewrite decide_True in Hst' by lia.
        destruct Hst' as (Hc' & Hm' & Ho' & Hcalm').
        rewrite fire_now. split; [done|]. split; [by rewrite fire_nextHandle|].
        rewrite fire_now, decide_True by lia.
        rewrite fire_cache_other, fire_mine_other, fire_outcome_other by auto.
        split; [done|]. split; [done|]. split; [done|].
        apply fire_calm; auto.
  - apply (tickMs_inv (fun w' => now w' = now w + 1 /\
                                 answered ns id s T h r D w')).
    + split; [done|]. split; [done|]. simpl. by rewrite decide_False by lia.
    + intros tm' w' _ _ (Hn & Hh' & Hst').
      rewrite decide_False in Hst' by lia.
      rewrite fire_now. split; [done|]. split; [by rewrite fire_nextHandle|].
      rewrite fire_now, decide_False by lia. by apply fire_outcome_stable.
Qed.

Lemma onCallbackBody_answered ns id s T h r D message details w :
  (forall r', writeOf ns message details <> Some (id, r')) ->
  answered ns id s T h r D w ->
  answered ns id s T h r D (onCallbackBody message details w).
Proof.
  intros Hnw (Hh & Hst).
  destruct (onCallbackBody_shape message details w) as (Hn & _ & Hle & _).
  unfold answered. rewrite Hn, onCallbackBody_outcome.
  rewrite onCallbackBody_mine, onCallbackBody_cache_frame by done.
  split; [lia|]. destruct (decide (now w < D)); [|done].
  destruct Hst as (Hc & Hm & Ho & Hcalm).
  split; [done|]. split; [done|]. split; [done|].
  apply onCallbackBody_calm; [by left|done].
Qed.

Lemma waitFor_answered ns id s T h r D ns' id' timeoutMs w :
  (ns, id) <> (ns', id') ->
  answered ns id s T h r D w ->
  answered ns id s T h r D (snd (waitFor ns' id' timeoutMs w)).
Proof.
  intros Hne (Hh & Hst).
  destruct (waitFor_shape ns' id' timeoutMs w)
    as (Hn & Hnh & _ & Hother & _).
  unfold answered. rewrite Hn, Hnh, waitFor_mine, waitFor_outcome by done.
  rewrite Hother by done.
  split; [lia|]. destruct (decide (now w < D)); [|done].
  destruct Hst as (Hc & Hm & Ho & Hcalm).
  split; [done|]. split; [done|]. split; [done|].
  by apply waitFor_calm.
Qed.

Lemma step_answered ns id s T h r D i w :
  noTouch ns id i ->
  answered ns id s T h r D w -> answered ns id s T h r D (step i w).
Proof.
  intros Hi Hw. destruct i; simpl in *.
  - unfold startGlobalCallbackListener.
    by destruct (globalListenerStarted w).
  - apply emit_inv; [done|]. intros w'. by apply onCallbackBody_answered.
  - by apply waitFor_answered.
  - by apply waitFor_answered.
  - apply advance_inv; [done|]. intros w'. apply tickMs_answered.
Qed.

Lemma play_answered ns id s T h r D l w :
  Forall (noTouch ns id) l ->
  answered ns id s T h r D w -> answered ns id s T h r D (play l w).
Proof.
  intros Hl Hw. apply play_inv; [done|].
  intros i w' Hin. apply step_answered.
  rewrite Forall_forall in Hl. by apply Hl, list_elem_of_In.
Qed.

Lemma step_now_mono i w : now w <= now (step i w).
Proof.
  destruct i; simpl.
  - unfold startGlobalCallbackListener.
    destruct (globalListenerStarted w); simpl; lia.
  - apply (emit_inv (fun w' => now w <= now w')); [lia|].
    intros w' Hle. by rewrite onCallbackBody_now.
  - destruct (waitFor_shape Ctrl ctrlId timeoutMs w) as (Hn & _).
    unfold waitForCtrlResult. lia.
  - destruct (waitFor_shape Res resId timeoutMs w) as (Hn & _).
    unfold waitForResResult. lia.
  - rewrite advance_now. lia.
Qed.

Lemma play_now_mono l w : now w <= now (play l w).
Proof.
  apply (play_inv (fun w' => now w <= now w')); [lia|].
  intros i w' _ Hle. pose proof (step_now_mono i w'). lia.
Qed.

(** C2 as stated fails.  The listener handles a notification for ID 5 and a
    first wait collects it, which leaves the deferred deletion of key 5
    armed for time 30000.  At time 29980 a second wait for ID 5 starts and
    finds no entry; at 29990, well inside its timeout of 200 ms, the listener
    writes [succeeded] for ID 5.  The deletion left by the first write fires
    at 30000, before the wait's next tick at 30030, and the wait times out
    with [failed]. *)
Lemma notified_wait_can_still_time_out :
  let w0 := play [StartListener;
                  Callback "Controller.Action.Succeeded"
                    (mkDetails (Some 5) None);
                  WaitCtrl 5 None;
                  Sleep 29980] initial in
  let h := fst (waitForCtrlResult 5 (Some 200) w0) in
  let w1 := play [Sleep 10] (snd (waitForCtrlResult 5 (Some 200) w0)) in
  let w2 := emit "Controller.Action.Succeeded" (mkDetails (Some 5) None) w1 in
  let w3 := play [Sleep 300] w2 in
  ctrlCallbackCache w0 !! 5 = None /\
  now w1 - now w0 <= 200 /\
  ctrlCallbackCache w2 !! 5 = Some succeeded /\
  outcome h w3 = Some (mkSettlement h failed 30230 None).
Proof. vm_compute. repeat split; congruence. Qed.

(** C2, amended. In either namespace, let a wait start while the table has
    no entry for the ID, and let the listener write an outcome for the ID
    before the wait's timeout has elapsed.  If at that moment nothing else
    touches the ID before the wait's next polling tick (no other wait polls
    the ID and no deferred deletion left by an earlier write of the ID falls
    due by then) and no further notification or wait for the ID comes in
    before that tick, then the wait's promise is resolved with that outcome
    at that tick, at most 50 ms after the write, and not by the timeout. *)
Theorem notified_wait_returns_outcome
    (ns : Namespace) (id : Z) (timeoutMs : option Z) (r : CallbackResult)
    (message : string) (details : MaaCallbackDetails)
    (pre post : list Input) (w0 : World) :
  let T := default (defaultTimeoutMs ns) timeoutMs in
  let s := now w0 in
  let h := fst (waitForOutcome ns id timeoutMs w0) in
  let w1 := play pre (snd (waitForOutcome ns id timeoutMs w0)) in
  let D := nextTick s (now w1) in
  let w2 := play post (emit message details w1) in
  reachable w0 ->
  cache ns w0 !! id = None ->
  Forall (noWrite ns id) pre ->
  globalListenerStarted w1 = true ->
  writeOf ns message details = Some (id, r) ->
  now w1 - s <= T ->
  calm ns id (Some h) D w1 ->
  Forall (noTouch ns id) post ->
  (now w2 < D -> outcome h w2 = None) /\
  (D <= now w2 -> outcome h w2 = Some (mkSettlement h r D (Some (ns, id)))) /\
  now w1 < D <= now w1 + 50.
Proof.
  intros T s h w1 D w2 Hr Hc Hpre Hg Hwr HT Hcalm Hpost.
  subst h w1 w2. revert D Hg HT Hcalm. rewrite waitForOutcome_waitFor.
  set (w1 := play pre (snd (waitFor ns id timeoutMs w0))).
  intros D Hg HT Hcalm.
  destruct (waitFor_miss ns id timeoutMs w0 Hc) as (Hfst & _ & _ & Hn0 & _).
  rewrite Hfst in *. set (h := nextHandle w0) in *.
  pose proof (reachable_handlesBelow w0 Hr) as Hw0.
  assert (Hmono : now w0 <= now w1).
  { rewrite <- Hn0. apply play_now_mono. }
  assert (HT0 : 0 <= T) by (subst s; lia).
  pose proof (waitFor_starts_unanswered ns id timeoutMs w0 Hw0 Hc HT0) as Hu.
  apply (play_unanswered _ _ _ _ _ pre) in Hu; [|done].
  fold w1 T s in Hu. destruct Hu as (Hs & Hh & Hc1 & Hst).
  pose proof (deadline_bounds s T) as Hdl.
  rewrite decide_True in Hst by lia. destruct Hst as [Hm Ho].
  pose proof (nextTick_bounds s (now w1)) as Hb. fold D in Hb, Hm.
  assert (Hr1 : reachable w1).
  { apply reachable_play.
    apply (reachable_step
             (match ns with Ctrl => WaitCtrl id timeoutMs
                          | Res => WaitRes id timeoutMs end) w0) in Hr.
    by destruct ns. }
  assert (Ha : answered ns id s T h r D (emit message details w1)).
  { rewrite emit_once by done.
    destruct (onCallbackBody_shape message details w1) as (Hn & _ & Hle & _).
    unfold answered. rewrite Hn, onCallbackBody_outcome.
    rewrite onCallbackBody_mine, onCallbackBody_cache, Hwr by done.
    split; [lia|]. rewrite decide_True by lia.
    split; [apply lookup_insert_eq|]. split; [done|]. split; [done|].
    apply onCallbackBody_calm; [|done].
    right. unfold CACHE_CLEANUP_TIMEOUT, POLL_INTERVAL in *. lia. }
  apply (play_answered _ _ _ _ _ _ _ post) in Ha; [|done].
  destruct Ha as (_ & Ha).
  split; [|split].
  - intros Hlt. rewrite decide_True in Ha by done. apply Ha.
  - intros Hge. by rewrite decide_False in Ha by lia.
  - unfold POLL_INTERVAL in *. lia.
Qed.

Lemma notified_wait_returns_outcome_witness :
  let w0 := play [StartListener] initial in
  let h := fst (waitForOutcome Ctrl 7 (Some 30000) w0) in
  let w1 := play [Sleep 120] (snd (waitForOutcome Ctrl 7 (Some 30000) w0)) in
  let w2 := play [Sleep 30]
              (emit "Controller.Action.Succeeded" (mkDetails (Some 7) None)
                 w1) in
  outcome h w2 = Some (mkSettlement h succeeded (nextTick (now w0) (now w1))
                    (Some (Ctrl, 7))).
Proof.
  intros w0 h w1 w2.
  refine (proj1 (proj2
    (notified_wait_returns_outcome Ctrl 7 (Some 30000) succeeded
       "Controller.Action.Succeeded" (mkDetails (Some 7) None)
       [Sleep 120] [Sleep 30] w0 _ _ _ _ _ _ _ _)) _).
  - by exists [StartListener].
  - reflexivity.
  - repeat constructor.
  - vm_compute. reflexivity.
  - reflexivity.
  - vm_compute. discriminate.
  - vm_compute. constructor; [intros _; by left|constructor].
  - repeat constructor.
  - vm_compute. discriminate.
Defined.

(** ** An entry nobody polls for *)

Lemma tickMs_kept ns id r D w : kept ns id r D w -> kept ns id r D (tickMs w).
Proof.
  intros Hk Hle. rewrite tickMs_now in Hle.
  destruct Hk as [Hc Hcalm]; [lia|]. split.
  - rewrite tickMs_cache_frame; [done|].
    intros tm Hin Hdue.
    by apply (calm_due_other ns id None D w tm (now w + 1)).
  - by apply tickMs_calm.
Qed.

Lemma step_kept ns id r D i w :
  noTouch ns id i -> kept ns id r D w -> kept ns id r D (step i w).
Proof.
  intros Hi Hw. destruct i; simpl in *.
  - unfold startGlobalCallbackListener.
    by destruct (globalListenerStarted w).
  - apply emit_inv; [done|]. intros w' Hw' Hle.
    rewrite onCallbackBody_now in Hle. destruct (Hw' Hle) as [Hc Hcalm].
    split; [by rewrite onCallbackBody_cache_frame|].
    apply onCallbackBody_calm; [by left|done].
  - destruct (waitFor_shape Ctrl ctrlId timeoutMs w) as (Hn & _ & _ & Ho & _).
    unfold waitForCtrlResult. intros Hle. rewrite Hn in Hle.
    destruct (Hw Hle) as [Hc Hcalm].
    split; [by rewrite Ho|by apply waitFor_calm].
  - destruct (waitFor_shape Res resId timeoutMs w) as (Hn & _ & _ & Ho & _).
    unfold waitForResResult. intros Hle. rewrite Hn in Hle.
    destruct (Hw Hle) as [Hc Hcalm].
    split; [by rewrite Ho|by apply waitFor_calm].
  - apply advance_inv; [done|]. intros w'. apply tickMs_kept.
Qed.



(** ** Two notifications, then a wait *)

(** C5 as stated fails.  The listener writes [failed] for ID 5 at time 0
    and, no wait having consumed it, [succeeded] for ID 5 at time 20000: the
    second outcome replaces the first.  At time 30000 the deferred deletion
    armed by the first write removes the entry; a wait for ID 5 that starts
    then, with a timeout of 100 ms, finds nothing, polls, and is resolved with
    [failed] by its timeout at 30150, not with the most recent outcome. *)
Lemma last_notification_can_be_lost :
  let w2 := play [StartListener;
                  Callback "Controller.Action.Failed"
                    (mkDetails (Some 5) None);
                  Sleep 20000;
                  Callback "Controller.Action.Succeeded"
                    (mkDetails (Some 5) None)] initial in
  let w3 := play [Sleep 10000] w2 in
  let h := fst (waitForCtrlResult 5 (Some 100) w3) in
  let w4 := play [Sleep 150] (snd (waitForCtrlResult 5 (Some 100) w3)) in
  ctrlCallbackCache w2 !! 5 = Some succeeded /\
  settled w3 = [] /\
  now w3 = 30000 /\
  ctrlCallbackCache w3 !! 5 = None /\
  outcome h w4 = Some (mkSettlement h failed 30150 None).
Proof. vm_compute. repeat split; congruence. Qed.

(** C5, amended. In either namespace, let the listener write an outcome for
    an ID and later, the first still being in the table, a second one; let a
    wait for the ID start less than 30000 ms after the first write.  If from
    the first write to the wait nothing else touches the ID (no wait polls it,
    no deferred deletion left by an earlier write of the ID falls due, and no
    further notification or wait for the ID comes in), then the second write
    replaces the first, the table holding one outcome for the ID, and the
    wait is resolved at once with the second outcome, which it removes. *)
Theorem last_terminal_notification_wins
    (ns : Namespace) (id : Z) (r1 r2 : CallbackResult)
    (m1 m2 : string) (d1 d2 : MaaCallbackDetails)
    (between after : list Input) (timeoutMs : option Z) (w : World) :
  let w1 := play between (emit m1 d1 w) in
  let w2 := emit m2 d2 w1 in
  let w3 := play after w2 in
  let p := fst (waitForOutcome ns id timeoutMs w3) in
  let w4 := snd (waitForOutcome ns id timeoutMs w3) in
  reachable w ->
  globalListenerStarted w = true ->
  writeOf ns m1 d1 = Some (id, r1) ->
  writeOf ns m2 d2 = Some (id, r2) ->
  Forall (noTouch ns id) between ->
  Forall (noTouch ns id) after ->
  now w3 < now w + CACHE_CLEANUP_TIMEOUT ->
  calm ns id None (now w3) w ->
  cache ns w1 !! id = Some r1 /\
  cache ns w2 = <[id := r2]> (cache ns w1) /\
  cache ns w3 !! id = Some r2 /\
  outcome p w4 = Some (mkSettlement p r2 (now w3) (Some (ns, id))) /\
  cache ns w4 !! id = None.
Proof.
  intros w1 w2 w3 p w4 Hr Hg H1 H2 Hbetween Hafter Hearly Hcalm.
  assert (Hr0 : reachable (emit m1 d1 w))
    by apply (reachable_step (Callback m1 d1) w Hr).
  assert (Hg0 : globalListenerStarted (emit m1 d1 w) = true)
    by (apply (step_started (Callback m1 d1)); by left).
  assert (Hw0 : emit m1 d1 w = onCallbackBody m1 d1 w) by (by apply emit_once).
  assert (Hr1 : reachable w1) by (by apply reachable_play).
  assert (Hg1 : globalListenerStarted w1 = true)
    by (apply play_started; by left).
  assert (Hw2 : w2 = onCallbackBody m2 d2 w1) by (by apply emit_once).
  assert (Hr2 : reachable w2) by apply (reachable_step (Callback m2 d2) w1 Hr1).
  assert (Hr3 : reachable w3) by (by apply reachable_play).
  assert (Hn0 : now (emit m1 d1 w) = now w)
    by (rewrite Hw0; apply onCallbackBody_now).
  assert (Hn01 : now (emit m1 d1 w) <= now w1) by apply play_now_mono.
  assert (Hn12 : now w2 = now w1) by (rewrite Hw2; apply onCallbackBody_now).
  assert (Hn23 : now w2 <= now w3) by apply play_now_mono.
  assert (Hk1 : kept ns id r1 (now w3) w1).
  { apply (play_inv (kept ns id r1 (now w3)) between).
    - intros _. rewrite Hw0. split.
      + rewrite onCallbackBody_cache, H1. apply lookup_insert_eq.
      + by apply onCallbackBody_calm; [right|].
    - intros i w' Hin. apply step_kept.
      rewrite Forall_forall in Hbetween. by apply Hbetween, list_elem_of_In. }
  destruct Hk1 as [Hc1 Hcalm1]; [lia|].
  assert (Hc2 : cache ns w2 = <[id := r2]> (cache ns w1))
    by (by rewrite Hw2, onCallbackBody_cache, H2).
  assert (Hk3 : kept ns id r2 (now w3) w3).
  { apply (play_inv (kept ns id r2 (now w3)) after).
    - intros _. split.
      + rewrite Hc2. apply lookup_insert_eq.
      + rewrite Hw2. apply onCallbackBody_calm; [right; lia|done].
    - intros i w' Hin. apply step_kept.
      rewrite Forall_forall in Hafter. by apply Hafter, list_elem_of_In. }
  destruct Hk3 as [Hc3 _]; [lia|].
  split; [done|]. split; [done|]. split; [done|].
  subst p w4. rewrite waitForOutcome_waitFor.
  destruct (waitFor_hit ns id timeoutMs w3 r2 Hc3) as (-> & Hs & _ & _ & Hd).
  split.
  - unfold outcome. rewrite Hs. apply outcome_snoc_fresh; [|done].
    apply outcome_fresh; [by apply reachable_handlesBelow|done].
  - rewrite Hd. apply lookup_delete_eq.
Qed.

Lemma last_terminal_notification_wins_witness :
  let w := play [StartListener] initial in
  let w3 := play [WaitRes 4 None; Sleep 9999]
              (emit "Resource.Loading.Succeeded" (mkDetails None (Some 3))
                 (play [Sleep 20000;
                        Callback "Controller.Action.Failed"
                          (mkDetails (Some 3) None)]
                    (emit "Resource.Loading.Failed" (mkDetails None (Some 3))
                       w))) in
  outcome (fst (waitForOutcome Res 3 None w3))
    (snd (waitForOutcome Res 3 None w3))
  = Some (mkSettlement (fst (waitForOutcome Res 3 None w3)) succeeded 29999
            (Some (Res, 3))).
Proof.
  intros w w3.
  refine (proj1 (proj2 (proj2 (proj2
    (last_terminal_notification_wins Res 3 failed succeeded
       "Resource.Loading.Failed" "Resource.Loading.Succeeded"
       (mkDetails None (Some 3)) (mkDetails None (Some 3))
       [Sleep 20000;
        Callback "Controller.Action.Failed" (mkDetails (Some 3) None)]
       [WaitRes 4 None; Sleep 9999] None w
       _ _ _ _ _ _ _ _))))).
  - by exists [StartListener].
  - reflexivity.
  - reflexivity.
  - reflexivity.
  - constructor; [done|]. constructor; [by intros r|constructor].
  - constructor; [simpl; congruence|]. constructor; [done|constructor].
  - vm_compute. reflexivity.
  - vm_compute. constructor.
Defined.

(** ** Single consumption *)

Lemma present_le_1 ns id w : (present ns id w <= 1)%nat.
Proof. unfold present. destruct (cache ns w !! id); lia. Qed.

Lemma hits_snoc ns id (l : list Settlement) e :
  length (filter (fun e' => from_cache e' = Some (ns, id)) (l ++ [e]))
  = (length (filter (fun e' => from_cache e' = Some (ns, id)) l)
     + if decide (from_cache e = Some (ns, id)) then 1 else 0)%nat.
Proof.
  rewrite filter_app, length_app, filter_cons, filter_nil.
  by destruct (decide (from_cache e = Some (ns, id))).
Qed.

(** A match: the entry of [(ns0, id0)] is logged as consumed and removed in
    one step. *)
Lemma match_consumption ns id ns0 id0 e w w' :
  is_Some (cache ns0 w !! id0) ->
  from_cache e = Some (ns0, id0) ->
  settled w' = settled w ++ [e] ->
  cache ns0 w' !! id0 = None ->
  (forall ns1 id1, (ns1, id1) <> (ns0, id0) ->
     cache ns1 w' !! id1 = cache ns1 w !! id1) ->
  (hits ns id w' + present ns id w' <= hits ns id w + present ns id w)%nat.
Proof.
  intros [c Hc] He Hs Hgone Hother. unfold hits, present.
  rewrite Hs, hits_snoc, He.
  destruct (decide ((ns, id) = (ns0, id0))) as [[= -> ->]|Hne].
  - rewrite decide_True, Hgone, Hc by done. lia.
  - rewrite decide_False, Hother by congruence. lia.
Qed.

Lemma fire_consumption ns id tm w :
  (hits ns id (fire tm w) + present ns id (fire tm w)
   <= hits ns id w + present ns id w)%nat.
Proof.
  fire_cases tm w.
  - assert (Hs : settled (cacheDelete ns0 id0 w) = settled w)
      by (by destruct ns0).
    unfold hits, present. rewrite Hs.
    destruct (decide ((ns, id) = (ns0, id0))) as [[= -> ->]|Hne].
    + replace (cache ns0 (cacheDelete ns0 id0 w) !! id0)
        with (@None CallbackResult)
        by (destruct ns0; simpl; by rewrite lookup_delete_eq).
      destruct (cache ns0 w !! id0); lia.
    + replace (cache ns (cacheDelete ns0 id0 w) !! id)
        with (cache ns w !! id); [lia|].
      destruct ns, ns0; simpl; try done;
        rewrite lookup_delete_ne; congruence.
  - apply (match_consumption ns id ns0 id0
             (mkSettlement (tid tm) c (now (cacheDelete ns0 id0 w))
                (Some (ns0, id0)))); try done.
    + by destruct ns0.
    + destruct ns0; simpl; apply lookup_delete_eq.
    + intros ns1 id1 Hne. destruct ns1, ns0; simpl; try done;
        rewrite lookup_delete_ne; congruence.
  - unfold hits, present. simpl. rewrite hits_snoc. simpl.
    replace (cache ns (resolve (tid tm) failed None w))
      with (cache ns w) by (by destruct ns). lia.
  - unfold hits, present. simpl.
    replace (cache ns (rearmTimer (tid tm) (CheckInterval ns0 id0 s T)
                         POLL_INTERVAL w))
      with (cache ns w) by (by destruct ns). lia.
Qed.

Lemma tickMs_consumption ns id w :
  (hits ns id (tickMs w) + present ns id (tickMs w)
   <= hits ns id w + present ns id w)%nat.
Proof.
  apply (tickMs_inv
           (fun w' => (hits ns id w' + present ns id w'
                       <= hits ns id w + present ns id w)%nat)).
  - unfold hits, present. simpl.
    replace (cache ns (withTimers
               (filter (fun tm => isDue (now w + 1) tm = false) (timers w))
               (withNow (now w + 1) w)))
      with (cache ns w) by (by destruct ns). lia.
  - intros tm w' _ _ Hle. pose proof (fire_consumption ns id tm w'). lia.
Qed.

Lemma waitFor_consumption ns id ns0 id0 timeoutMs w :
  (hits ns id (snd (waitFor ns0 id0 timeoutMs w))
   + present ns id (snd (waitFor ns0 id0 timeoutMs w))
   <= hits ns id w + present ns id w)%nat.
Proof.
  destruct (cache ns0 w !! id0) as [c|] eqn:Hc.
  - destruct (waitFor_hit ns0 id0 timeoutMs w c Hc) as (_ & Hs & _).
    destruct (waitFor_shape ns0 id0 timeoutMs w) as (_ & _ & Hgone & Ho & _).
    apply (match_consumption ns id ns0 id0
             (mkSettlement (nextHandle w) c (now w) (Some (ns0, id0))) w);
      [by eexists|done..].
  - destruct (waitFor_miss ns0 id0 timeoutMs w Hc) as (_ & Hs & _ & _ & _ & Hk).
    unfold hits, present. rewrite Hs, Hk. lia.
Qed.

Lemma emit_consumption ns id message details w :
  (hits ns id (emit message details w) + present ns id (emit message details w)
   <= hits ns id w + present ns id w
      + if isWrite ns id (Callback message details) then 1 else 0)%nat.
Proof.
  assert (Hh : hits ns id (emit message details w) = hits ns id w).
  { apply (emit_inv (fun w' => hits ns id w' = hits ns id w)); [done|].
    intros w' <-. unfold hits.
    by destruct (onCallbackBody_shape message details w') as (_ & -> & _). }
  rewrite Hh. destruct (isWrite ns id (Callback message details)) eqn:Hw.
  - pose proof (present_le_1 ns id (emit message details w)). lia.
  - assert (Hc : cache ns (emit message details w) !! id = cache ns w !! id).
    { apply (emit_inv (fun w' => cache ns w' !! id = cache ns w !! id));
        [done|].
      intros w' <-. apply onCallbackBody_cache_frame.
      intros r Hwr. simpl in Hw. rewrite Hwr in Hw.
      by rewrite bool_decide_eq_false in Hw. }
    unfold present. rewrite Hc. lia.
Qed.

Lemma step_consumption ns id i w :
  (hits ns id (step i w) + present ns id (step i w)
   <= hits ns id w + present ns id w
      + if isWrite ns id i then 1 else 0)%nat.
Proof.
  destruct i; simpl step.
  - unfold startGlobalCallbackListener.
    destruct (globalListenerStarted w); simpl; [lia|].
    unfold hits, present. simpl.
    replace (cache ns (onCallback
               (mkWorld (ctrlCallbackCache w) (resCallbackCache w) true
                  (callbacks w) (timers w) (settled w) (nextHandle w)
                  (now w))))
      with (cache ns w) by (by destruct ns). lia.
  - apply emit_consumption.
  - pose proof (waitFor_consumption ns id Ctrl ctrlId timeoutMs w).
    unfold waitForCtrlResult. simpl. lia.
  - pose proof (waitFor_consumption ns id Res resId timeoutMs w).
    unfold waitForResResult. simpl. lia.
  - simpl. rewrite Nat.add_0_r.
    apply (advance_inv
             (fun w' => (hits ns id w' + present ns id w'
                         <= hits ns id w + present ns id w)%nat)); [lia|].
    intros w' Hle. pose proof (tickMs_consumption ns id w'). lia.
Qed.

Lemma play_consumption ns id l w :
  (hits ns id (play l w) + present ns id (play l w)
   <= hits ns id w + present ns id w + writes ns id l)%nat.
Proof.
  revert w. induction l as [|i l IH]; intros w; [simpl; unfold writes; simpl; lia|].
  simpl. pose proof (IH (step i w)) as Hl.
  pose proof (step_consumption ns id i w) as Hi.
  unfold writes in *. rewrite filter_cons.
  destruct (isWrite ns id i) eqn:Hw.
  - rewrite decide_True by done. simpl. lia.
  - rewrite decide_False by congruence. lia.
Qed.

(** C4. In either namespace and for every ID: a successful match, by the
    first check of a wait or by a polling tick, removes the entry in the same
    step, so that a wait for the same ID that starts next finds nothing; and
    over any sequence of inputs, the number of waits resolved from the ID's
    entry, plus the entry still in the table, never exceeds the number of
    terminal notifications for the ID: each outcome written is returned to at
    most one wait. *)
Theorem each_outcome_consumed_at_most_once
    (ns : Namespace) (id : Z) (l : list Input) :
  let w := play l initial in
  (hits ns id w + present ns id w <= writes ns id l)%nat /\
  (forall r timeoutMs timeoutMs',
     cache ns w !! id = Some r ->
     let w' := snd (waitForOutcome ns id timeoutMs w) in
     cache ns w' !! id = None /\
     timers (snd (waitForOutcome ns id timeoutMs' w'))
       = timers w' ++ [poller ns id (now w')
                         (default (defaultTimeoutMs ns) timeoutMs')
                         (nextHandle w') (now w' + POLL_INTERVAL)]) /\
  (forall r p s T,
     cache ns w !! id = Some r ->
     cache ns (checkIntervalBody p ns id s T w) !! id = None /\
     settled (checkIntervalBody p ns id s T w)
       = settled w ++ [mkSettlement p r (now w) (Some (ns, id))]).
Proof.
  intros w. split; [|split].
  - pose proof (play_consumption ns id l initial) as H. fold w in H.
    unfold hits at 2, present at 2 in H. simpl in H.
    replace (cache ns initial !! id) with (@None CallbackResult) in H
      by (by destruct ns).
    simpl in H. lia.
  - intros r timeoutMs timeoutMs' Hc w'. subst w'.
    rewrite waitForOutcome_waitFor.
    destruct (waitFor_shape ns id timeoutMs w) as (_ & _ & Hgone & _).
    split; [done|].
    by destruct (waitFor_miss ns id timeoutMs' _ Hgone) as (_ & _ & Ht & _).
  - intros r p s T Hc. unfold checkIntervalBody. rewrite Hc.
    split; destruct ns; simpl; try done; apply lookup_delete_eq.
Qed.

(** * Further properties of the module *)

(** ** Every wait comes to an end *)

Lemma nextTick_le_giveUp s t T :
  t < giveUp s T -> nextTick s t <= giveUp s T.
Proof. unfold giveUp. tick_arith. Qed.

Lemma nextTick_before_giveUp s t T :
  nextTick s t - s <= T -> nextTick s t < giveUp s T.
Proof. unfold giveUp. tick_arith. Qed.

Lemma giveUp_bounds s T :
  s + POLL_INTERVAL <= giveUp s T <= s + Z.max 0 T + POLL_INTERVAL.
Proof. unfold giveUp. tick_arith. Qed.

Lemma settling_transfer ns id s T h w w' :
  now w' = now w ->
  (nextHandle w <= nextHandle w')%nat ->
  mine h w' = mine h w ->
  outcome h w' = outcome h w ->
  settling ns id s T h w -> settling ns id s T h w'.
Proof.
  intros Hn Hh Hm Ho (Hs & Hlt & Hst).
  unfold settling, polling, settledBy in *. rewrite Hn, Hm, Ho.
  split; [done|]. split; [lia|done].
Qed.

Lemma fire_settling_other ns id s T h tm w :
  tid tm <> h -> settling ns id s T h w -> settling ns id s T h (fire tm w).
Proof.
  intros Hne. apply settling_transfer.
  - apply fire_now.
  - by rewrite fire_nextHandle.
  - by apply fire_mine_other.
  - by apply fire_outcome_other.
Qed.

Lemma fire_poller_settling ns id s T h w :
  (h < nextHandle w)%nat ->
  mine h w = [] ->
  outcome h w = None ->
  s <= now w ->
  now w = nextTick s (now w - 1) ->
  now w <= giveUp s T ->
  settling ns id s T h (fire (poller ns id s T h (now w)) w).
Proof.
  intros Hh Hm Ho Hs Hn Hg.
  unfold fire, checkIntervalBody; simpl.
  destruct (cache ns w !! id) as [r|] eqn:Hc;
    [|destruct (now w - s >? T) eqn:Hcmp].
  - split; [by destruct ns|]. split; [by destruct ns|]. right. split.
    + unfold mine in *. by destruct ns.
    + eexists. split.
      * unfold outcome; simpl.
        replace (settled (cacheDelete ns id w)) with (settled w)
          by (by destruct ns).
        by apply outcome_snoc_fresh.
      * simpl. replace (now (cacheDelete ns id w)) with (now w)
          by (by destruct ns). lia.
  - split; [done|]. split; [done|]. right. split; [done|].
    eexists. split; [unfold outcome; simpl; by apply outcome_snoc_fresh|].
    simpl. lia.
  - assert (Hle : now w - s <= T) by lia.
    assert (Hlt : now w < giveUp s T).
    { rewrite Hn at 1. apply nextTick_before_giveUp. rewrite <- Hn. lia. }
    split; [done|]. split; [done|]. left. split; [done|]. split; [|done].
    unfold mine in *. simpl.
    rewrite filter_app, Hm, filter_cons, decide_True by done.
    simpl. unfold poller. do 2 f_equal.
    replace (now w) with (now w - 1 + 1) at 2 by lia.
    rewrite nextTick_hit; lia.
Qed.

Lemma tickMs_settling ns id s T h w :
  settling ns id s T h w -> settling ns id s T h (tickMs w).
Proof.
  intros (Hs & Hh & [[Hlt [Hm Ho]]|[Hm He]]).
  - pose proof (nextTick_bounds s (now w)) as Hb.
    pose proof (nextTick_le_giveUp s (now w) T Hlt) as Hle.
    set (tm := poller ns id s T h (nextTick s (now w))) in *.
    destruct (isDue (now w + 1) tm) eqn:Hdue.
    + assert (HD : nextTick s (now w) = now w + 1)
        by (unfold isDue in Hdue; simpl in Hdue; lia).
      apply (tickMs_inv_mine
               (fun w' => now w' = now w + 1 /\ (h < nextHandle w')%nat /\
                          mine h w' = [] /\ outcome h w' = None)
               (settling ns id s T h) h tm w); try done.
      * rewrite mine_later, Hm, filter_cons, decide_False by congruence.
        done.
      * intros tm' w' _ Hne _ (Hn & Hh' & Hm' & Ho').
        by rewrite fire_now, fire_nextHandle, fire_mine_other,
          fire_outcome_other.
      * intros w' (Hn & Hh' & Hm' & Ho').
        subst tm. rewrite HD, <- Hn.
        apply fire_poller_settling; try done; try lia.
        rewrite Hn. replace (now w + 1 - 1) with (now w) by lia. done.
      * intros tm' w' _ Hne _. by apply fire_settling_other.
    + assert (HD : now w + 1 < nextTick s (now w))
        by (unfold isDue in Hdue; simpl in Hdue; lia).
      apply (tickMs_inv_others (settling ns id s T h) h).
      * rewrite Hm. by apply Forall_singleton.
      * split; [simpl; lia|]. split; [done|]. left. split; [simpl; lia|].
        unfold polling. rewrite mine_later, Hm. simpl.
        rewrite filter_cons, decide_True by done.
        rewrite nextTick_stay by done. done.
      * intros tm' w' _ Hne _. by apply fire_settling_other.
  - apply (tickMs_inv_others (settling ns id s T h) h).
    + rewrite Hm. constructor.
    + split; [simpl; lia|]. split; [done|]. right.
      unfold settledBy. rewrite mine_later, Hm. done.
    + intros tm' w' _ Hne _. by apply fire_settling_other.
Qed.

Lemma step_settling ns id s T h i w :
  settling ns id s T h w -> settling ns id s T h (step i w).
Proof.
  intros Hw. pose proof Hw as (_ & Hh & _). destruct i; simpl.
  - unfold startGlobalCallbackListener.
    by destruct (globalListenerStarted w).
  - apply emit_inv; [done|]. intros w' Hw'. pose proof Hw' as (_ & Hh' & _).
    destruct (onCallbackBody_shape message details w') as (Hn & _ & Hle & _).
    apply (settling_transfer ns id s T h w'); try done.
    + by apply onCallbackBody_mine.
    + apply onCallbackBody_outcome.
  - destruct (waitFor_shape Ctrl ctrlId timeoutMs w) as (Hn & Hnh & _).
    apply (settling_transfer ns id s T h w); try done; unfold waitForCtrlResult.
    + lia.
    + by apply waitFor_mine.
    + by apply waitFor_outcome.
  - destruct (waitFor_shape Res resId timeoutMs w) as (Hn & Hnh & _).
    apply (settling_transfer ns id s T h w); try done; unfold waitForResResult.
    + lia.
    + by apply waitFor_mine.
    + by apply waitFor_outcome.
  - apply advance_inv; [done|]. intros w'. apply tickMs_settling.
Qed.

Lemma waitFor_starts_settling ns id timeoutMs w :
  handlesBelow w ->
  settling ns id (now w) (default (defaultTimeoutMs ns) timeoutMs)
    (nextHandle w) (snd (waitFor ns id timeoutMs w)).
Proof.
  intros Hw.
  pose proof (giveUp_bounds (now w) (default (defaultTimeoutMs ns) timeoutMs))
    as Hg. unfold POLL_INTERVAL in Hg.
  destruct (waitFor_shape ns id timeoutMs w) as (Hn & Hnh & _).
  split; [lia|]. split; [lia|].
  destruct (cache ns w !! id) as [r|] eqn:Hc.
  - destruct (waitFor_hit ns id timeoutMs w r Hc) as (_ & Hs & Ht & _).
    right. split.
    + unfold mine. rewrite Ht. by apply mine_fresh.
    + eexists. split.
      * unfold outcome. rewrite Hs. apply outcome_snoc_fresh; [|done].
        by apply outcome_fresh.
      * simpl. lia.
  - destruct (waitFor_miss ns id timeoutMs w Hc) as (_ & Hs & Ht & _).
    left. split; [lia|]. split.
    + unfold mine. rewrite Hn, Ht, filter_app.
      fold (mine (nextHandle w) w). rewrite mine_fresh by done.
      rewrite filter_cons, decide_True by done.
      by rewrite nextTick_start.
    + unfold outcome. rewrite Hs. by apply outcome_fresh.
Qed.

(** X1. Whatever notifications, waits and other timers come in, the promise
    returned by [waitForCtrlResult] / [waitForResResult] is resolved no
    later than the first polling tick more than [max T 0] after the call
    (at least one tick, at most [max T 0 + 50] ms), and by then its polling
    interval has been cleared: no wait hangs and no interval is left
    behind. *)
Theorem every_wait_settles_by_its_deadline
    (ns : Namespace) (id : Z) (timeoutMs : option Z) (l : list Input)
    (w0 : World) :
  let T := default (defaultTimeoutMs ns) timeoutMs in
  let s := now w0 in
  let h := fst (waitForOutcome ns id timeoutMs w0) in
  let w := play l (snd (waitForOutcome ns id timeoutMs w0)) in
  reachable w0 ->
  giveUp s T <= now w ->
  mine h w = [] /\
  (exists e, outcome h w = Some e /\ s <= at_ms e <= giveUp s T) /\
  giveUp s T <= s + Z.max 0 T + 50.
Proof.
  intros T s h w Hr Hlate. subst h w. revert Hlate.
  rewrite waitForOutcome_waitFor. intros Hlate.
  assert (Hh : fst (waitFor ns id timeoutMs w0) = nextHandle w0)
    by (unfold waitFor; by destruct (cache ns _ !! id)).
  rewrite Hh.
  pose proof (waitFor_starts_settling ns id timeoutMs w0
                (reachable_handlesBelow w0 Hr)) as Hst.
  assert (Hend : settling ns id s T (nextHandle w0)
                   (play l (snd (waitFor ns id timeoutMs w0)))).
  { apply play_inv; [done|]. intros i w' _. apply step_settling. }
  destruct Hend as (_ & _ & [[Hlt _]|[Hm He]]); [lia|].
  split; [done|]. split; [done|].
  pose proof (giveUp_bounds s T). unfold POLL_INTERVAL in *. lia.
Qed.

Lemma every_wait_settles_by_its_deadline_witness :
  let w0 := play [StartListener] initial in
  mine (fst (waitForOutcome Res 4 (Some (-100)) w0))
    (play [Sleep 20;
           Callback "Resource.Loading.Failed" (mkDetails None (Some 8));
           Sleep 30]
       (snd (waitForOutcome Res 4 (Some (-100)) w0))) = [].
Proof.
  intros w0.
  refine (proj1
    (every_wait_settles_by_its_deadline Res 4 (Some (-100))
       [Sleep 20;
        Callback "Resource.Loading.Failed" (mkDetails None (Some 8));
        Sleep 30] w0 _ _)).
  - by exists [StartListener].
  - vm_compute. discriminate.
Defined.

(** ** Before the listener is started *)

Lemma fire_deaf tm w : deaf w -> deaf (fire tm w).
Proof.
  intros (Hg & Hc & Hempty & Hs).
  destruct (fire_frame tm w) as (_ & _ & Hc' & Hg').
  split; [congruence|]. split; [congruence|]. split.
  - intros ns id. by apply fire_cache_None.
  - fire_cases tm w.
    + by destruct ns.
    + by rewrite Hempty in Heqo.
    + simpl. apply Forall_app; split; [done|]. by apply Forall_singleton.
    + done.
Qed.

Lemma step_deaf i w : i <> StartListener -> deaf w -> deaf (step i w).
Proof.
  intros Hi Hw. pose proof Hw as (Hg & Hc & Hempty & Hs).
  destruct i; simpl; try done.
  - unfold emit. by rewrite Hc.
  - unfold waitForCtrlResult.
    destruct (waitFor_miss Ctrl ctrlId timeoutMs w (Hempty Ctrl ctrlId))
      as (_ & Hs' & _ & _ & _ & Hk).
    destruct (waitFor_subscription Ctrl ctrlId timeoutMs w) as [Hc' Hg'].
    split; [congruence|]. split; [congruence|]. split; [|by rewrite Hs'].
    intros ns id. by rewrite Hk.
  - unfold waitForResResult.
    destruct (waitFor_miss Res resId timeoutMs w (Hempty Res resId))
      as (_ & Hs' & _ & _ & _ & Hk).
    destruct (waitFor_subscription Res resId timeoutMs w) as [Hc' Hg'].
    split; [congruence|]. split; [congruence|]. split; [|by rewrite Hs'].
    intros ns id. by rewrite Hk.
  - apply advance_inv; [done|]. intros w' Hw'.
    apply tickMs_inv.
    + destruct Hw' as (Hg' & Hc' & Hempty' & Hs').
      split; [done|]. split; [done|]. split; [|done].
      intros ns id. specialize (Hempty' ns id). by destruct ns.
    + intros tm w'' _ _. apply fire_deaf.
Qed.

(** X2. As long as [startGlobalCallbackListener] has not been called,
    upstream events are lost: whatever is emitted and however long one
    waits, both tables stay empty, and every wait that has come to an end was
    resolved with [failed] by its timeout. *)
Theorem without_listener_every_wait_times_out (l : list Input) :
  ~ In StartListener l ->
  let w := play l initial in
  (forall ns id, cache ns w !! id = None) /\
  (forall message details, emit message details w = w) /\
  Forall (fun e => value e = failed /\ from_cache e = None) (settled w).
Proof.
  intros Hnot w.
  assert (Hd : deaf w).
  { apply play_inv.
    - split; [done|]. split; [done|]. split; [by intros []|constructor].
    - intros i w' Hin. apply step_deaf. by intros ->. }
  destruct Hd as (_ & Hc & Hempty & Hs).
  split; [done|]. split; [|done].
  intros message details. unfold emit. by rewrite Hc.
Qed.

Lemma without_listener_every_wait_times_out_witness :
  Forall (fun e => value e = failed /\ from_cache e = None)
    (settled
       (play [WaitCtrl 1 (Some 100);
              Callback "Controller.Action.Succeeded" (mkDetails (Some 1) None);
              Sleep 200] initial)).
Proof.
  refine (proj2 (proj2
    (without_listener_every_wait_times_out
       [WaitCtrl 1 (Some 100);
        Callback "Controller.Action.Succeeded" (mkDetails (Some 1) None);
        Sleep 200] _))).
  intros [H|[H|[H|[]]]]; discriminate.
Defined.

(** ** An entry nobody waits for *)

(** X3. The retention window is also a lower bound where nothing else
    touches the ID: if, when the listener writes an outcome, no wait is
    polling for the ID and no deferred deletion of the ID is due before the
    one this write arms, then the outcome stays in the table for the whole
    of the next 30000 ms, whatever notifications and waits for other IDs
    (or for the same number in the other namespace) come in. *)
Theorem entry_kept_until_its_deletion
    (ns : Namespace) (id : Z) (r : CallbackResult)
    (message : string) (details : MaaCallbackDetails)
    (l : list Input) (w : World) :
  let w1 := emit message details w in
  let w2 := play l w1 in
  reachable w ->
  globalListenerStarted w = true ->
  writeOf ns message details = Some (id, r) ->
  calm ns id None (now w + CACHE_CLEANUP_TIMEOUT - 1) w ->
  Forall (noTouch ns id) l ->
  now w2 < now w + CACHE_CLEANUP_TIMEOUT ->
  cache ns w2 !! id = Some r.
Proof.
  intros w1 w2 Hr Hg Hw Hcalm Hl Hearly.
  assert (Hw1 : w1 = onCallbackBody message details w) by (by apply emit_once).
  assert (Hk : kept ns id r (now w + CACHE_CLEANUP_TIMEOUT - 1) w2).
  { apply play_inv.
    - intros _. rewrite Hw1. split.
      + rewrite onCallbackBody_cache, Hw. apply lookup_insert_eq.
      + apply onCallbackBody_calm; [right; lia|done].
    - intros i w' Hin. apply step_kept.
      rewrite Forall_forall in Hl. by apply Hl, list_elem_of_In. }
  apply Hk. lia.
Qed.

Lemma entry_kept_until_its_deletion_witness :
  let w := play [StartListener; WaitRes 3 None] initial in
  cache Ctrl
    (play [Callback "Resource.Loading.Failed" (mkDetails None (Some 3));
           WaitCtrl 4 None; Sleep 29999]
       (emit "Controller.Action.Succeeded" (mkDetails (Some 3) None) w)) !! 3
  = Some succeeded.
Proof.
  intros w.
  refine (entry_kept_until_its_deletion Ctrl 3 succeeded
            "Controller.Action.Succeeded" (mkDetails (Some 3) None)
            [Callback "Resource.Loading.Failed" (mkDetails None (Some 3));
             WaitCtrl 4 None; Sleep 29999] w _ _ _ _ _ _).
  - by exists [StartListener; WaitRes 3 None].
  - reflexivity.
  - reflexivity.
  - vm_compute. constructor; [|constructor]. intros Hk. discriminate.
  - constructor; [by intros r|]. constructor; [simpl; congruence|].
    constructor; [done|constructor].
  - vm_compute. reflexivity.
Defined.

(** ** Payloads that do not parse *)

(** X4. When [JSON.parse] fails on an event's payload, the handler of
    [maaService.onCallback] hands the listener the empty details [{}], and
    the listener then changes nothing, whatever the message kind: no table
    write, no timer.  A payload that parses is handled as the listener
    handles its details. *)
Theorem unparseable_payload_changes_nothing
    (parse : string -> option MaaCallbackDetails)
    (message details : string) (w : World) :
  (parse details = None ->
   onCallbackHandler parse onCallbackBody message details w = w) /\
  (forall d, parse details = Some d ->
   onCallbackHandler parse onCallbackBody message details w
   = listenerSpec message d w).
Proof.
  unfold onCallbackHandler. split.
  - intros ->. rewrite onCallbackBody_listenerSpec.
    unfold listenerSpec, writeNamespace, writeOf. by simpl.
  - intros d ->. apply onCallbackBody_listenerSpec.
Qed.

Lemma unparseable_payload_changes_nothing_witness :
  onCallbackHandler (fun _ => None) onCallbackBody
    "Controller.Action.Succeeded" "{ctrl_id: 5" initial = initial.
Proof.
  apply (proj1 (unparseable_payload_changes_nothing (fun _ => None)
                  "Controller.Action.Succeeded" "{ctrl_id: 5" initial)).
  reflexivity.
Defined.

(** ** waitForScreencap *)

Lemma scHandler_verdict id message details s :
  scHandler id message details s =
    match scVerdict id (ScEvent message details) with
    | Some v => scResolve v (scCleanup s)
    | None => s
    end.
Proof.
  unfold scHandler, scVerdict.
  destruct (decide (ctrl_id details = Some id)); [|done].
  rewrite terminalKind_eqb. simpl.
  destruct (String.eqb message "Controller.Action.Succeeded"); [done|].
  by destruct (String.eqb message "Controller.Action.Failed").
Qed.

Lemma scStep_result_stable id i s v :
  sc_result s = Some v -> sc_result (scStep id s i) = Some v.
Proof.
  intros Hv. destruct i; simpl; try done.
  - destruct (sc_listening s); [|done]. rewrite scHandler_verdict.
    destruct (scVerdict id _); [|done]. unfold scResolve. simpl. by rewrite Hv.
  - destruct (sc_timer s); [|done]. unfold scResolve. simpl. by rewrite Hv.
Qed.

Lemma scRun_result_stable id l s v :
  sc_result s = Some v -> sc_result (scRun id l s) = Some v.
Proof.
  revert s. induction l as [|i l IH]; intros s Hv; [done|].
  simpl. apply IH. by apply scStep_result_stable.
Qed.

Lemma scRun_first_decision id l s :
  sc_result s = None -> sc_timer s = true ->
  sc_result (scRun id l s) = scFirstDecision id (sc_listening s) l.
Proof.
  revert s. induction l as [|i l IH]; intros s Hr Ht; [done|].
  destruct i as [| |message details|]; cbn [scRun foldl scFirstDecision].
  - by apply (IH (scStep id s ScRegistered)).
  - by apply (IH (scStep id s ScSettled)).
  - fold (scRun id l (scStep id s (ScEvent message details))).
    cbn [scStep]. rewrite scHandler_verdict.
    destruct (scVerdict id (ScEvent message details)) as [v|] eqn:Hv.
    + destruct (sc_listening s) eqn:Hl; [|by rewrite IH, Hl].
      apply scRun_result_stable. unfold scResolve. simpl. by rewrite Hr.
    + destruct (sc_listening s) eqn:Hl; by rewrite IH, Hl.
  - fold (scRun id l (scStep id s ScTimeout)).
    apply scRun_result_stable. cbn [scStep]. rewrite Ht.
    unfold scResolve. simpl. by rewrite Hr.
Qed.

(** X5. In the Tauri runtime, the promise of [waitForScreencap] is decided
    by whichever comes first: the timeout, which gives [false], or a
    [Controller.Action.Succeeded] / [Controller.Action.Failed] notification
    carrying exactly this [ctrl_id] and delivered to the registered handler,
    which gives [true] / [false].  Events with another or no [ctrl_id], other
    message kinds and everything after the decision have no effect on the
    result. *)
Theorem screencap_first_decision_wins (id : Z) (l l' : list ScInput) :
  sc_result (scRun id l scStart) = scFirstDecision id false l /\
  (forall v, sc_result (scRun id l scStart) = Some v ->
             sc_result (scRun id (l ++ l') scStart) = Some v).
Proof.
  split.
  - by apply scRun_first_decision.
  - intros v Hv. unfold scRun in *. rewrite foldl_app.
    by apply scRun_result_stable.
Qed.

Lemma scStep_pending_iff_armed id i s :
  (sc_result s = None <-> sc_timer s = true) ->
  (sc_result (scStep id s i) = None <-> sc_timer (scStep id s i) = true).
Proof.
  intros Hs. destruct i; simpl; try done.
  - destruct (sc_listening s); [|done]. rewrite scHandler_verdict.
    destruct (scVerdict id _); [|done].
    unfold scResolve. simpl.
    destruct (sc_result s) eqn:Hr; simpl; rewrite ?Hr; split; try done.
  - destruct (sc_timer s) eqn:Ht; [|by rewrite Ht].
    unfold scResolve. simpl.
    destruct (sc_result s) eqn:Hr; simpl; rewrite ?Hr; split; try done.
Qed.

(** X6. At every moment of a [waitForScreencap] call in the Tauri runtime,
    the promise is pending exactly when the timeout is still armed: a pending
    call is always going to be resolved by its timeout at the latest, and a
    resolved one has had its timeout cancelled. *)
Theorem screencap_pending_iff_timeout_armed (id : Z) (l : list ScInput) :
  sc_result (scRun id l scStart) = None <->
  sc_timer (scRun id l scStart) = true.
Proof.
  unfold scRun.
  assert (H : forall s,
             (sc_result s = None <-> sc_timer s = true) ->
             (sc_result (foldl (scStep id) s l) = None <->
              sc_timer (foldl (scStep id) s l) = true)).
  { induction l as [|i l IH]; intros s Hs; [done|].
    simpl. apply IH. by apply scStep_pending_iff_armed. }
  by apply H.
Qed.

Lemma scStep_released id i s :
  i <> ScRegistered ->
  sc_unlisten s = true /\
    (sc_result s <> None -> sc_listening s = false /\ sc_timer s = false) ->
  sc_unlisten (scStep id s i) = true /\
    (sc_result (scStep id s i) <> None ->
     sc_listening (scStep id s i) = false /\ sc_timer (scStep id s i) = false).
Proof.
  intros Hi [Hu Hs]. destruct i; simpl; try done.
  - destruct (sc_listening s) eqn:Hl; [|by rewrite Hl].
    rewrite scHandler_verdict.
    destruct (scVerdict id _); [|by rewrite Hl].
    unfold scResolve, scCleanup. simpl. rewrite Hu.
    destruct (sc_result s) eqn:Hr; simpl; rewrite ?Hr, ?Hu; done.
  - destruct (sc_timer s) eqn:Ht; [|by rewrite Ht].
    unfold scResolve, scCleanup. simpl. rewrite Hu.
    destruct (sc_result s) eqn:Hr; simpl; rewrite ?Hr, ?Hu; done.
Qed.

(** X7. When the promise of [onCallback] has settled while the call is
    still pending, so that [unlisten] is assigned, then as soon as the call
    is decided, by a notification or by the timeout, the handler is
    unsubscribed and the timeout is cancelled, and they stay so. *)
Theorem screencap_releases_listener_when_decided
    (id : Z) (l1 l2 : list ScInput) :
  let s1 := scRun id l1 scStart in
  let s2 := scRun id l2 s1 in
  sc_unlisten s1 = true ->
  sc_result s1 = None ->
  ~ In ScRegistered l2 ->
  sc_result s2 <> None ->
  sc_listening s2 = false /\ sc_timer s2 = false.
Proof.
  intros s1 s2 Hu Hr Hnr Hdec. subst s2. revert Hnr Hdec.
  assert (Hinv : sc_unlisten s1 = true /\
            (sc_result s1 <> None ->
             sc_listening s1 = false /\ sc_timer s1 = false))
    by (by rewrite Hr).
  clear Hu Hr. revert Hinv. generalize s1. clear s1.
  induction l2 as [|i l2 IH]; intros s [Hu Hs] Hnr Hdec; [by apply Hs|].
  simpl in *. apply IH; [|tauto|done].
  apply scStep_released; [|done]. intros ->. apply Hnr. by left.
Qed.

Lemma screencap_releases_listener_when_decided_witness :
  sc_listening
    (scRun 7 [ScEvent "Controller.Action.Starting" (mkDetails (Some 7) None);
              ScEvent "Controller.Action.Failed" (mkDetails (Some 7) None)]
       (scRun 7 [ScRegistered; ScSettled] scStart)) = false.
Proof.
  refine (proj1
    (screencap_releases_listener_when_decided 7 [ScRegistered; ScSettled]
       [ScEvent "Controller.Action.Starting" (mkDetails (Some 7) None);
        ScEvent "Controller.Action.Failed" (mkDetails (Some 7) None)]
       _ _ _ _)).
  - reflexivity.
  - reflexivity.
  - intros [H|[H|[]]]; discriminate.
  - vm_compute. discriminate.
Defined.

Lemma scStep_leak id i s :
  scVerdict id i = None ->
  sc_timer s = false /\ sc_listening s = true ->
  sc_timer (scStep id s i) = false /\ sc_listening (scStep id s i) = true.
Proof.
  intros Hv [Ht Hl]. destruct i; simpl; try done.
  - rewrite Hl, scHandler_verdict, Hv. done.
  - by rewrite Ht.
Qed.

Lemma scStep_decides_unassigned id i s :
  sc_unlisten s = false ->
  sc_result s = None ->
  sc_result (scStep id s i) <> None ->
  sc_unlisten (scStep id s i) = false /\
  sc_listening (scStep id s i) = sc_listening s /\
  sc_timer (scStep id s i) = false.
Proof.
  intros Hu Hr. destruct i as [| |message details|]; simpl; try done.
  - destruct (sc_listening s) eqn:Hl; [|done]. rewrite scHandler_verdict.
    destruct (scVerdict id _); [|done]. intros _.
    unfold scResolve, scCleanup. simpl. by rewrite Hr, Hu.
  - destruct (sc_timer s) eqn:Ht; [|done]. intros _.
    unfold scResolve, scCleanup. simpl. by rewrite Hr, Hu.
Qed.

(** X8. When the call is decided while [unlisten] is still unassigned
    (the timeout fires, or a notification arrives, before the promise of
    [onCallback] settles), [cleanup] cancels the timeout but cannot
    unsubscribe: the registered handler is still registered after the promise
    is resolved, and stays registered, also once [unlisten] has been
    assigned, until another terminal notification for the same ID arrives;
    the result does not change. *)
Theorem screencap_listener_outlives_early_decision
    (id : Z) (l1 l2 : list ScInput) (i : ScInput) :
  let s0 := scRun id l1 scStart in
  let s1 := scStep id s0 i in
  let s2 := scRun id l2 s1 in
  sc_result s0 = None ->
  sc_unlisten s0 = false ->
  sc_listening s0 = true ->
  sc_result s1 <> None ->
  Forall (fun i' => scVerdict id i' = None) l2 ->
  (i = ScTimeout \/ is_Some (scVerdict id i)) /\
  sc_unlisten s1 = false /\
  sc_listening s1 = true /\
  sc_timer s1 = false /\
  sc_listening s2 = true /\
  sc_result s2 = sc_result s1.
Proof.
  intros s0 s1 s2 Hr Hu Hl Hdec Hl2.
  destruct (scStep_decides_unassigned id i s0 Hu Hr Hdec) as (Hu1 & Hl1 & Ht1).
  rewrite Hl in Hl1. fold s1 in Hu1, Hl1, Ht1.
  split; [|split; [done|split; [done|split; [done|split]]]].
  - destruct i as [| |message details|]; [done|done| |by left].
    right. subst s1. simpl in Hdec. rewrite Hl, scHandler_verdict in Hdec.
    by destruct (scVerdict id (ScEvent message details)).
  - subst s2.
    assert (Hinv : sc_timer s1 = false /\ sc_listening s1 = true) by done.
    clear -Hinv Hl2. revert Hinv. generalize s1. clear s1.
    induction Hl2 as [|i' l2 Hi _ IH]; intros s Hinv; [apply Hinv|].
    simpl. apply IH. by apply scStep_leak.
  - destruct (sc_result s1) as [v|] eqn:Hv; [|done].
    by apply scRun_result_stable.
Qed.

Lemma screencap_listener_outlives_early_decision_witness :
  sc_listening
    (scRun 7 [ScSettled;
              ScEvent "Controller.Action.Succeeded" (mkDetails (Some 8) None)]
       (scStep 7 (scRun 7 [ScRegistered] scStart) ScTimeout)) = true.
Proof.
  refine (proj1 (proj2 (proj2 (proj2 (proj2
    (screencap_listener_outlives_early_decision 7 [ScRegistered]
       [ScSettled;
        ScEvent "Controller.Action.Succeeded" (mkDetails (Some 8) None)]
       ScTimeout _ _ _ _ _)))))).
  - reflexivity.
  - reflexivity.
  - reflexivity.
  - vm_compute. discriminate.
  - repeat constructor.
Defined.

(** ** Hex colours *)

Lemma lowerUnit_hex c : isLowerHexDigit (lowerUnit c) = isHexDigit c.
Proof. all_units c. Qed.

Lemma lowerUnit_lowerHex c : isLowerHexDigit c = true -> lowerUnit c = c.
Proof. all_units c. Qed.

Lemma lowerHex_hex c : isLowerHexDigit c = true -> isHexDigit c = true.
Proof. all_units c. Qed.

Lemma lowerHex_not_space c :
  isLowerHexDigit c = true -> isWhiteSpace c = false.
Proof. all_units c. Qed.

Lemma hex_not_space c : isHexDigit c = true -> isWhiteSpace c = false.
Proof. all_units c. Qed.

Lemma hex_not_hash c : isHexDigit c = true -> c <> "#"%char.
Proof. all_units c. Qed.

Lemma lowerUnit_space c : isWhiteSpace (lowerUnit c) = isWhiteSpace c.
Proof. all_units c. Qed.

Lemma lowerUnit_idem c : lowerUnit (lowerUnit c) = lowerUnit c.
Proof. all_units c. Qed.

Lemma lowerUnit_eqb_hash c : Ascii.eqb (lowerUnit c) "#" = Ascii.eqb c "#".
Proof. all_units c. Qed.

Lemma toLowerCase_length s : String.length (toLowerCase s) = String.length s.
Proof. induction s as [|c s IH]; simpl; congruence. Qed.

Lemma toLowerCase_hex s :
  allUnits isLowerHexDigit (toLowerCase s) = allUnits isHexDigit s.
Proof.
  induction s as [|c s IH]; simpl; [done|]. by rewrite lowerUnit_hex, IH.
Qed.

Lemma testHashDigits_toLowerCase n s :
  testHashDigits isLowerHexDigit n (toLowerCase s)
  = testHashDigits isHexDigit n s.
Proof.
  destruct s as [|c s]; simpl; [done|].
  by rewrite lowerUnit_eqb_hash, toLowerCase_length, toLowerCase_hex.
Qed.

Lemma trimEnd_noSpace s : allUnits noSpace s = true -> trimEnd s = s.
Proof.
  induction s as [|c s IH]; simpl; [done|].
  intros [Hc Hs]%andb_prop. rewrite IH by done.
  destruct s; [|done]. unfold noSpace in Hc.
  by destruct (isWhiteSpace c).
Qed.

Lemma trim_noSpace s : allUnits noSpace s = true -> trim s = s.
Proof.
  intros Hs. unfold trim.
  assert (trimStart s = s) as ->; [|by apply trimEnd_noSpace].
  destruct s as [|c s]; simpl in *; [done|].
  apply andb_prop in Hs as [Hc _]. unfold noSpace in Hc.
  by destruct (isWhiteSpace c).
Qed.

Lemma allUnits_impl (f g : ascii -> bool) s :
  (forall c, f c = true -> g c = true) ->
  allUnits f s = true -> allUnits g s = true.
Proof.
  intros Hfg. induction s as [|c s IH]; simpl; [done|].
  intros [Hc Hs]%andb_prop. by rewrite Hfg, IH.
Qed.

Lemma canonical_noSpace h :
  isCanonicalHex h = true -> allUnits noSpace h = true.
Proof.
  destruct h as [|c h]; simpl; [done|].
  intros [[Hc _]%andb_prop Hh]%andb_prop.
  apply Ascii.eqb_eq in Hc as ->. simpl.
  eapply allUnits_impl; [|exact Hh].
  intros c Hc. unfold noSpace. by rewrite lowerHex_not_space.
Qed.

Lemma toLowerCase_lowerHex s :
  allUnits isLowerHexDigit s = true -> toLowerCase s = s.
Proof.
  induction s as [|c s IH]; simpl; [done|].
  intros [Hc Hs]%andb_prop. by rewrite lowerUnit_lowerHex, IH.
Qed.

Lemma canonical_lower h : isCanonicalHex h = true -> toLowerCase h = h.
Proof.
  destruct h as [|c h]; simpl; [done|].
  intros [[Hc _]%andb_prop Hh]%andb_prop.
  apply Ascii.eqb_eq in Hc as ->. simpl. by rewrite toLowerCase_lowerHex.
Qed.

Lemma canonical_not3 h :
  isCanonicalHex h = true -> testHashDigits isLowerHexDigit 3 h = false.
Proof.
  destruct h as [|c h]; simpl; [done|].
  intros [[_ Hl]%andb_prop _]%andb_prop.
  apply Nat.eqb_eq in Hl. rewrite Hl. simpl. by rewrite andb_false_r.
Qed.

Lemma normalizeHex_canonical h :
  isCanonicalHex h = true -> normalizeHex h = Some h.
Proof.
  intros Hh. unfold normalizeHex.
  rewrite trim_noSpace by (by apply canonical_noSpace).
  assert (Hs : startsWithHash h = true).
  { destruct h as [|c h]; simpl in *; [done|].
    by apply andb_prop in Hh as [[-> _]%andb_prop _]. }
  assert (Hne : String.eqb h EmptyString = false) by (by destruct h).
  rewrite Hne, Hs, canonical_lower, canonical_not3 by done.
  unfold isCanonicalHex in Hh. by rewrite Hh.
Qed.

Lemma normalizeHex_result v h :
  normalizeHex v = Some h -> isCanonicalHex h = true.
Proof.
  unfold normalizeHex. destruct (String.eqb (trim v) EmptyString); [done|].
  set (lv := toLowerCase _). clearbody lv.
  destruct (testHashDigits isLowerHexDigit 3 lv) eqn:H3.
  - destruct lv as [|c0 [|r [|g [|b [|x lv]]]]]; simpl in H3; try done;
      rewrite ?andb_false_r in H3; try done.
    intros [= <-]. simpl.
    apply andb_prop in H3
      as [_ [Hr [Hg [Hb _]%andb_prop]%andb_prop]%andb_prop].
    by rewrite Hr, Hg, Hb.
  - destruct (testHashDigits isLowerHexDigit 6 lv) eqn:H6; [|done].
    by intros [= <-].
Qed.

Lemma canonical_valid h : isCanonicalHex h = true -> isValidHex h = true.
Proof.
  intros Hh. unfold isValidHex.
  rewrite trim_noSpace by (by apply canonical_noSpace).
  assert (testHashDigits isHexDigit 6 h = true) as ->; [|done].
  destruct h as [|c h]; simpl in *; [done|].
  apply andb_prop in Hh as [-> Hh]. simpl.
  eapply allUnits_impl; [|exact Hh]. apply lowerHex_hex.
Qed.

(** X9. Whatever [normalizeHex] returns is in canonical form: seven code
    units, [#] and six digits of [0-9a-f]; it passes [isValidHex], and
    [normalizeHex] maps it to itself, so that normalizing twice is
    normalizing once. *)
Theorem normalizeHex_gives_canonical_form (v h : string) :
  normalizeHex v = Some h ->
  String.length h = 7%nat /\ isCanonicalHex h = true /\
  isValidHex h = true /\ normalizeHex h = Some h.
Proof.
  intros Hn%normalizeHex_result.
  split; [|split; [done|split;
             [by apply canonical_valid|by apply normalizeHex_canonical]]].
  destruct h as [|c h]; simpl in *; [done|].
  apply andb_prop in Hn as [[_ Hl]%andb_prop _].
  apply Nat.eqb_eq in Hl. by rewrite Hl.
Qed.

Lemma normalizeHex_gives_canonical_form_witness :
  normalizeHex "  AbC " = Some "#aabbcc" /\
  normalizeHex "#aabbcc" = Some "#aabbcc".
Proof.
  split; [reflexivity|].
  apply (normalizeHex_gives_canonical_form "  AbC " "#aabbcc").
  reflexivity.
Defined.

Lemma testHashDigits_starts digit n v :
  testHashDigits digit n v = true -> startsWithHash v = true.
Proof.
  destruct v as [|c v]; simpl; [done|].
  by intros [[-> _]%andb_prop _]%andb_prop.
Qed.

Lemma testHashDigits_nonempty digit n v :
  testHashDigits digit n v = true -> String.eqb v EmptyString = false.
Proof. by destruct v. Qed.

(** [normalizeHex] without the detour through lower case. *)
Lemma normalizeHex_cases v :
  let t := trim v in
  let v' := if startsWithHash t then t else String "#" t in
  normalizeHex v =
    if String.eqb t EmptyString then None
    else if testHashDigits isHexDigit 3 v' then
      match toLowerCase v' with
      | String _ (String r (String g (String b _))) =>
          Some (String "#" (String r (String r (String g (String g
                 (String b (String b EmptyString)))))))
      | _ => None
      end
    else if testHashDigits isHexDigit 6 v' then Some (toLowerCase v')
    else None.
Proof.
  intros t v'. unfold normalizeHex. fold t. fold v'.
  by rewrite !testHashDigits_toLowerCase.
Qed.

Lemma normalizeHex_some_iff v :
  let t := trim v in
  let v' := if startsWithHash t then t else String "#" t in
  is_Some (normalizeHex v) <->
  String.eqb t EmptyString = false /\
  (testHashDigits isHexDigit 3 v' = true \/
   testHashDigits isHexDigit 6 v' = true).
Proof.
  intros t v'. rewrite normalizeHex_cases. fold t. fold v'.
  destruct (String.eqb t EmptyString); [split; [by intros []|by intros []]|].
  destruct (testHashDigits isHexDigit 3 v') eqn:H3.
  - split; [auto|]. intros _.
    destruct v' as [|c0 [|r [|g [|b [|x v']]]]]; simpl in H3; try done;
      rewrite ?andb_false_r in H3; try done.
  - destruct (testHashDigits isHexDigit 6 v'); split; try done; auto.
    by intros [_ [|]].
Qed.

(** X10. Every string [isValidHex] accepts, [#RGB] or [#RRGGBB] in either
    case with surrounding white space, is one [normalizeHex] can
    normalize. *)
Theorem valid_hex_normalizes (v : string) :
  isValidHex v = true -> is_Some (normalizeHex v).
Proof.
  unfold isValidHex. intros Hv. apply normalizeHex_some_iff.
  apply orb_prop in Hv.
  assert (Hs : startsWithHash (trim v) = true)
    by (destruct Hv as [Hv|Hv]; by apply testHashDigits_starts in Hv).
  rewrite Hs. split; [|tauto].
  destruct Hv as [Hv|Hv]; by apply testHashDigits_nonempty in Hv.
Qed.

Lemma valid_hex_normalizes_witness : is_Some (normalizeHex " #4F46E5").
Proof. apply (valid_hex_normalizes " #4F46E5"). reflexivity. Defined.

Lemma testHashDigits_partial n t :
  (n <= 6)%nat ->
  testHashDigits isHexDigit n (if startsWithHash t then t else String "#" t)
    = true ->
  testPartialHex t = true.
Proof.
  intros Hn. unfold testPartialHex.
  destruct t as [|c t]; [done|]. cbn [startsWithHash].
  destruct (Ascii.eqb c "#") eqn:Hc; cbn [testHashDigits]; rewrite ?Hc.
  - intros [[_ Hl]%andb_prop Hh]%andb_prop.
    apply Nat.eqb_eq in Hl. rewrite Hl, Hh, andb_true_r. by apply Nat.leb_le.
  - intros [[_ Hl]%andb_prop Hh]%andb_prop.
    apply Nat.eqb_eq in Hl. rewrite Hl, Hh, andb_true_r. by apply Nat.leb_le.
Qed.

(** X11. Every string [normalizeHex] can normalize passes [isHexLike]:
    the gate the hex text input puts before [normalizeHex] never holds back
    a value that could be committed. *)
Theorem normalizable_is_hex_like (v : string) :
  is_Some (normalizeHex v) -> isHexLike v = true.
Proof.
  intros [_ Hv]%normalizeHex_some_iff. unfold isHexLike.
  assert (testPartialHex (trim v) = true) as ->; [|by rewrite !orb_true_r].
  destruct Hv as [Hv|Hv]; eapply testHashDigits_partial; try exact Hv; lia.
Qed.

Lemma normalizable_is_hex_like_witness : isHexLike "4f46e5 " = true.
Proof.
  apply (normalizable_is_hex_like "4f46e5 "). by exists "#4f46e5".
Defined.

Lemma trimStart_toLowerCase s :
  trimStart (toLowerCase s) = toLowerCase (trimStart s).
Proof.
  induction s as [|c s IH]; simpl; [done|].
  rewrite lowerUnit_space. by destruct (isWhiteSpace c).
Qed.

Lemma trimEnd_toLowerCase s :
  trimEnd (toLowerCase s) = toLowerCase (trimEnd s).
Proof.
  induction s as [|c s IH]; simpl; [done|].
  rewrite IH, lowerUnit_space.
  destruct (trimEnd s); simpl; [|done]. by destruct (isWhiteSpace c).
Qed.

Lemma trim_toLowerCase s : trim (toLowerCase s) = toLowerCase (trim s).
Proof. unfold trim. by rewrite trimStart_toLowerCase, trimEnd_toLowerCase. Qed.

Lemma toLowerCase_idem s : toLowerCase (toLowerCase s) = toLowerCase s.
Proof.
  induction s as [|c s IH]; simpl; [done|]. by rewrite lowerUnit_idem, IH.
Qed.

Lemma startsWithHash_toLowerCase s :
  startsWithHash (toLowerCase s) = startsWithHash s.
Proof. destruct s as [|c s]; simpl; [done|]. apply lowerUnit_eqb_hash. Qed.

Lemma normalizeHex_toLowerCase v :
  normalizeHex (toLowerCase v) = normalizeHex v.
Proof.
  unfold normalizeHex. rewrite trim_toLowerCase, startsWithHash_toLowerCase.
  assert (String.eqb (toLowerCase (trim v)) EmptyString
          = String.eqb (trim v) EmptyString) as ->
    by (by destruct (trim v)).
  destruct (String.eqb (trim v) EmptyString); [done|].
  assert (toLowerCase (if startsWithHash (trim v) then toLowerCase (trim v)
                       else String "#" (toLowerCase (trim v)))
          = toLowerCase (if startsWithHash (trim v) then trim v
                         else String "#" (trim v))) as ->; [|done].
  destruct (startsWithHash (trim v)); simpl; by rewrite toLowerCase_idem.
Qed.

Lemma isValidHex_toLowerCase v : isValidHex (toLowerCase v) = isValidHex v.
Proof.
  unfold isValidHex. rewrite trim_toLowerCase.
  rewrite <- !(testHashDigits_toLowerCase _ (toLowerCase _)), toLowerCase_idem.
  by rewrite !testHashDigits_toLowerCase.
Qed.

(** X12. [normalizeHex] and [isValidHex] do not see the case of letters:
    two inputs with the same lower-case form are normalized to the same
    result and are valid together. *)
Theorem normalizeHex_ignores_case (v1 v2 : string) :
  toLowerCase v1 = toLowerCase v2 ->
  normalizeHex v1 = normalizeHex v2 /\ isValidHex v1 = isValidHex v2.
Proof.
  intros Heq. split.
  - by rewrite <- (normalizeHex_toLowerCase v1), Heq, normalizeHex_toLowerCase.
  - by rewrite <- (isValidHex_toLowerCase v1), Heq, isValidHex_toLowerCase.
Qed.

Lemma normalizeHex_ignores_case_witness :
  normalizeHex "#4F46e5" = normalizeHex "#4f46E5".
Proof.
  apply (normalizeHex_ignores_case "#4F46e5" "#4f46E5"). reflexivity.
Defined.

Lemma allUnits_append f s1 s2 :
  allUnits f (String.append s1 s2) = allUnits f s1 && allUnits f s2.
Proof.
  induction s1 as [|c s1 IH]; simpl; [done|]. by rewrite IH, andb_assoc.
Qed.

Lemma length_append s1 s2 :
  String.length (String.append s1 s2)
  = (String.length s1 + String.length s2)%nat.
Proof. induction s1 as [|c s1 IH]; simpl; [done|]. by rewrite IH. Qed.

Lemma hexLike_of_digits p :
  (String.length p <= 6)%nat -> allUnits isHexDigit p = true ->
  isHexLike p = true /\ isHexLike (String "#" p) = true.
Proof.
  intros Hl Hh.
  assert (Hns : allUnits noSpace p = true).
  { eapply allUnits_impl; [|exact Hh].
    intros c Hc. unfold noSpace. by rewrite hex_not_space. }
  unfold isHexLike. split.
  - rewrite trim_noSpace by done.
    assert (testPartialHex p = true) as ->; [|by rewrite !orb_true_r].
    unfold testPartialHex. destruct p as [|c p]; [done|].
    assert (Ascii.eqb c "#" = false) as ->.
    { apply Ascii.eqb_neq, hex_not_hash. simpl in Hh.
      by apply andb_prop in Hh as [-> _]. }
    rewrite Hh, andb_true_r. by apply Nat.leb_le.
  - rewrite trim_noSpace by (simpl; by rewrite Hns).
    assert (testPartialHex (String "#" p) = true) as ->;
      [|by rewrite !orb_true_r].
    unfold testPartialHex. simpl Ascii.eqb. cbv iota.
    rewrite Hh, andb_true_r. by apply Nat.leb_le.
Qed.

(** X13. On the way to a value [normalizeHex] accepts, every prefix typed
    so far passes [isHexLike]: the text input never blocks a keystroke that
    leads to a colour that can be committed. *)
Theorem every_prefix_of_normalizable_is_hex_like (v p q : string) :
  is_Some (normalizeHex v) -> trim v = v -> v = String.append p q ->
  isHexLike p = true.
Proof.
  intros [_ Hv]%normalizeHex_some_iff Ht ->. rewrite Ht in Hv. clear Ht.
  assert (Hd : exists n, (n <= 6)%nat /\
            testHashDigits isHexDigit n
              (if startsWithHash (String.append p q) then String.append p q
               else String "#" (String.append p q)) = true).
  { destruct Hv as [Hv|Hv]; eexists; (split; [|exact Hv]); lia. }
  clear Hv. destruct Hd as (n & Hn & Hv).
  destruct p as [|c p]; [done|].
  change (String.append (String c p) q) with (String c (String.append p q))
    in Hv.
  cbn [startsWithHash] in Hv.
  destruct (Ascii.eqb c "#") eqn:Hc; cbn [testHashDigits] in Hv;
    rewrite ?Hc in Hv.
  - apply Ascii.eqb_eq in Hc as ->.
    apply andb_prop in Hv as [[_ Hl]%andb_prop Hh].
    apply Nat.eqb_eq in Hl. rewrite length_append in Hl.
    rewrite allUnits_append in Hh. apply andb_prop in Hh as [Hh _].
    apply hexLike_of_digits; [lia|done].
  - apply andb_prop in Hv as [[_ Hl]%andb_prop Hh].
    apply Nat.eqb_eq in Hl.
    change (String c (String.append p q)) with (String.append (String c p) q)
      in Hl, Hh.
    rewrite length_append in Hl.
    rewrite allUnits_append in Hh. apply andb_prop in Hh as [Hh _].
    apply hexLike_of_digits; [lia|done].
Qed.

Lemma every_prefix_of_normalizable_is_hex_like_witness :
  isHexLike "#4F4" = true.
Proof.
  apply (every_prefix_of_normalizable_is_hex_like "#4F46E5" "#4F4" "6E5").
  - by exists "#4f46e5".
  - reflexivity.
  - reflexivity.
Defined.

(** ** Switch cases *)

Lemma includes_disjoint n :
  includes YES_CASE_NAMES n = true -> includes NO_CASE_NAMES n = false.
Proof.
  unfold includes, YES_CASE_NAMES, NO_CASE_NAMES. simpl.
  rewrite !orb_false_r.
  intros H. repeat (apply orb_prop in H as [H|H]);
    apply String.eqb_eq in H; subst; reflexivity.
Qed.

Lemma includes_In names n : includes names n = true <-> In n names.
Proof.
  unfold includes. rewrite existsb_exists. split.
  - intros (x & Hin & Heq). apply String.eqb_eq in Heq. by subst.
  - intros Hin. exists n. split; [done|]. apply String.eqb_refl.
Qed.

Lemma includes_not_In names n : includes names n = false <-> ~ In n names.
Proof.
  rewrite <- includes_In. by destruct (includes names n).
Qed.

Lemma find_first {A} (f : A -> bool) (l : list A) (x : A) :
  List.find f l = Some x <->
  exists pre post, l = pre ++ x :: post /\ f x = true /\
                   Forall (fun y => f y = false) pre.
Proof.
  split.
  - induction l as [|y l IH]; [done|]. simpl.
    destruct (f y) eqn:Hy.
    + intros [= ->]. exists [], l. by repeat split.
    + intros Hf. destruct (IH Hf) as (pre & post & -> & Hx & Hpre).
      exists (y :: pre), post. split; [done|]. split; [done|by constructor].
  - intros (pre & post & -> & Hx & Hpre).
    induction Hpre as [|y pre Hy _ IH]; simpl; [by rewrite Hx|by rewrite Hy].
Qed.

Lemma find_nothing {A} (f : A -> bool) (l : list A) :
  List.find f l = None <-> Forall (fun y => f y = false) l.
Proof.
  split.
  - intros Hf. apply Forall_forall. intros y Hin.
    apply list_elem_of_In in Hin. by apply (find_none f l Hf).
  - intros Hl. induction Hl as [|y l Hy _ IH]; simpl; [done|by rewrite Hy].
Qed.

(** X14. [findSwitchCase] returns a case exactly when the list has one
    whose name is among the names of the asked state (Yes, yes, Y, y for
    checked; No, no, N, n for unchecked), and then it is the first such case
    of the list; it returns [undefined] exactly when the list is missing or
    has no such case.  The cases found for the two states never bear the same
    name: a switch's two states cannot resolve to one case. *)
Theorem switch_states_resolve_to_different_cases {CaseItem : Type}
    (name : CaseItem -> string) (cases : option (list CaseItem))
    (isChecked : bool) :
  let targetNames :=
    if isChecked then ["Yes"; "yes"; "Y"; "y"] else ["No"; "no"; "N"; "n"] in
  (forall c,
     findSwitchCase name cases isChecked = Some c <->
     exists pre post,
       cases = Some (pre ++ c :: post) /\ In (name c) targetNames /\
       Forall (fun c' => ~ In (name c') targetNames) pre) /\
  (findSwitchCase name cases isChecked = None <->
   forall cs, cases = Some cs ->
              Forall (fun c' => ~ In (name c') targetNames) cs) /\
  (forall c c',
     findSwitchCase name cases isChecked = Some c ->
     findSwitchCase name cases (negb isChecked) = Some c' ->
     name c <> name c').
Proof.
  intros targetNames.
  assert (Ht : targetNames =
               if isChecked then YES_CASE_NAMES else NO_CASE_NAMES)
    by (by destruct isChecked).
  assert (Hfirst : forall c,
    findSwitchCase name cases isChecked = Some c <->
    exists pre post,
      cases = Some (pre ++ c :: post) /\ In (name c) targetNames /\
      Forall (fun c' => ~ In (name c') targetNames) pre).
  { intros c. unfold findSwitchCase. destruct cases as [cs|].
    - cbv zeta. rewrite <- Ht, find_first. split.
      + intros (pre & post & -> & Hc & Hpre). exists pre, post.
        split; [done|]. split; [by apply includes_In|].
        eapply Forall_impl; [exact Hpre|]. intros c'. apply includes_not_In.
      + intros (pre & post & [= ->] & Hc & Hpre). exists pre, post.
        split; [done|]. split; [by apply includes_In|].
        eapply Forall_impl; [exact Hpre|]. intros c'. apply includes_not_In.
    - split; [done|]. by intros (pre & post & Hcs & _). }
  split; [done|]. split.
  - unfold findSwitchCase. destruct cases as [cs|].
    + cbv zeta. rewrite <- Ht, find_nothing. split.
      * intros Hcs cs' [= <-]. eapply Forall_impl; [exact Hcs|].
        intros c'. apply includes_not_In.
      * intros Hcs. eapply Forall_impl; [exact (Hcs cs eq_refl)|].
        intros c'. apply includes_not_In.
    + split; [done|]. by intros _.
  - intros c c' Hc Hc' Heq.
    apply Hfirst in Hc as (_ & _ & _ & Hc & _).
    unfold findSwitchCase in Hc'. destruct cases as [cs|]; [|done].
    apply find_some in Hc' as [_ Hc']. rewrite <- Heq in Hc'.
    rewrite Ht in Hc. apply includes_In in Hc.
    destruct isChecked; cbn [negb] in Hc'.
    + apply includes_disjoint in Hc. congruence.
    + apply includes_disjoint in Hc'. congruence.
Qed.

Lemma switch_states_resolve_to_different_cases_witness :
  findSwitchCase (fun s : string => s) (Some ["maybe"; "N"; "Y"; "yes"]) true
    = Some "Y" /\
  findSwitchCase (fun s : string => s) (Some ["maybe"; "N"; "Y"; "yes"]) false
    = Some "N" /\
  findSwitchCase (fun s : string => s) (Some ["maybe"; "on"; "off"]) true
    = None.
Proof.
  split; [|split].
  - apply (proj1 (switch_states_resolve_to_different_cases (fun s : string => s)
                    (Some ["maybe"; "N"; "Y"; "yes"]) true)).
    exists ["maybe"; "N"], ["yes"]. split; [reflexivity|].
    split; [simpl; tauto|].
    repeat constructor; simpl; intros H; repeat destruct H as [H|H];
      (discriminate || done).
  - apply (proj1 (switch_states_resolve_to_different_cases (fun s : string => s)
                    (Some ["maybe"; "N"; "Y"; "yes"]) false)).
    exists ["maybe"], ["Y"; "yes"]. split; [reflexivity|].
    split; [simpl; tauto|].
    repeat constructor; simpl; intros H; repeat destruct H as [H|H];
      (discriminate || done).
  - apply (proj1 (proj2 (switch_states_resolve_to_different_cases
                    (fun s : string => s) (Some ["maybe"; "on"; "off"]) true))).
    intros cs [= <-].
    repeat constructor; simpl; intros H; repeat destruct H as [H|H];
      (discriminate || done).
Defined.

(** ** Configuration paths *)

Lemma hasUnit_append u s1 s2 :
  hasUnit u (String.append s1 s2) = hasUnit u s1 || hasUnit u s2.
Proof.
  induction s1 as [|c s1 IH]; simpl; [done|]. by rewrite IH, orb_assoc.
Qed.

Lemma replaceBackslashes_clean s : hasUnit "092" (replaceBackslashes s) = false.
Proof.
  induction s as [|c s IH]; simpl; [done|]. rewrite IH, orb_false_r.
  destruct (Ascii.eqb c "092") eqn:Hc; [done|exact Hc].
Qed.

Lemma dropTrailingSlash_clean u s :
  hasUnit u s = false -> hasUnit u (dropTrailingSlash s) = false.
Proof.
  induction s as [|c s IH]; [done|].
  cbn [hasUnit]. intros [Hc Hs]%orb_false_elim.
  destruct s as [|d s].
  - cbn [dropTrailingSlash]. destruct (Ascii.eqb c "/"); [done|].
    cbn [hasUnit]. by rewrite Hc.
  - change (dropTrailingSlash (String c (String d s)))
      with (String c (dropTrailingSlash (String d s))).
    cbn [hasUnit]. rewrite Hc. by apply IH.
Qed.

Lemma replaceBackslashes_idem s :
  replaceBackslashes (replaceBackslashes s) = replaceBackslashes s.
Proof.
  induction s as [|c s IH]; simpl; [done|]. rewrite IH.
  by destruct (Ascii.eqb c "092") eqn:Hc; simpl; rewrite ?Hc.
Qed.

Lemma replaceBackslashes_special s :
  String.eqb (replaceBackslashes s) EmptyString = String.eqb s EmptyString /\
  String.eqb (replaceBackslashes s) "." = String.eqb s ".".
Proof.
  destruct s as [|c [|d s]]; simpl; try done.
  - split; [done|]. destruct (Ascii.eqb c "092") eqn:Hc; [|done].
    apply Ascii.eqb_eq in Hc as ->. done.
  - split; [done|]. repeat (case_match; try done).
Qed.

Lemma endsWith_append suffix s :
  endsWith suffix (String.append s suffix) = true.
Proof.
  induction s as [|c s IH]; simpl.
  - destruct suffix; simpl; by rewrite ?String.eqb_refl, ?Ascii.eqb_refl.
  - by rewrite IH, orb_true_r.
Qed.

(** X15. For every base path, the configuration directory contains no
    backslash and ends in [/config], and a Windows-style base path gives the
    same directory as the same path written with slashes. *)
Theorem config_dir_is_normalized (basePath : string) :
  hasUnit "092" (getConfigDir basePath) = false /\
  endsWith "/config" (getConfigDir basePath) = true /\
  getConfigDir (replaceBackslashes basePath) = getConfigDir basePath.
Proof.
  unfold getConfigDir.
  destruct (replaceBackslashes_special basePath) as [-> ->].
  rewrite replaceBackslashes_idem.
  destruct (String.eqb basePath EmptyString || String.eqb basePath ".").
  - done.
  - split; [|split; [|done]].
    + rewrite hasUnit_append.
      rewrite dropTrailingSlash_clean by apply replaceBackslashes_clean. done.
    + apply (endsWith_append "/config").
Qed.

Lemma append_inj_l a x y : String.append a x = String.append a y -> x = y.
Proof. induction a as [|c a IH]; simpl; [done|]. intros [= H]. auto. Qed.

Lemma append_inj_r s x y : String.append x s = String.append y s -> x = y.
Proof.
  revert y. induction x as [|c x IH]; intros [|d y] H.
  - done.
  - apply (f_equal String.length) in H.
    rewrite !length_append in H. simpl in H. lia.
  - apply (f_equal String.length) in H.
    rewrite !length_append in H. simpl in H. lia.
  - change (String c (String.append x s) = String d (String.append y s)) in H.
    injection H as -> H. by rewrite (IH y H).
Qed.

Lemma projectKey_cases p :
  projectKey p = None \/
  exists s, projectKey p = Some s /\ String.eqb s EmptyString = false.
Proof.
  destruct p as [s|]; simpl; [|by left].
  destruct (String.eqb s EmptyString) eqn:Hs; [by left|right; eauto].
Qed.

Lemma getConfigFileName_key p :
  getConfigFileName p = getConfigFileName (projectKey p).
Proof.
  destruct p as [p|]; simpl; [|done].
  destruct (String.eqb p EmptyString) eqn:Hp; simpl; [done|]. by rewrite Hp.
Qed.

Lemma getConfigFileName_inj p q :
  getConfigFileName p = getConfigFileName q -> projectKey p = projectKey q.
Proof.
  rewrite (getConfigFileName_key p), (getConfigFileName_key q).
  destruct (projectKey_cases p) as [->|(s & -> & Hs)],
           (projectKey_cases q) as [->|(t & -> & Ht)];
    simpl; rewrite ?Hs, ?Ht; try done.
  intros H%append_inj_l%append_inj_r. by subst.
Qed.

(** X16. Under one base path, two project names get the same
    configuration file exactly when they stand for the same project, no name
    and the empty name counting as one: configurations of different projects
    never share a file. *)
Theorem config_files_do_not_collide (basePath : string) (p q : option string) :
  getConfigPath basePath p = getConfigPath basePath q <->
  projectKey p = projectKey q.
Proof.
  split.
  - unfold getConfigPath. intros H%append_inj_l%append_inj_l.
    by apply getConfigFileName_inj.
  - intros H. unfold getConfigPath.
    by rewrite (getConfigFileName_key p), H, <- getConfigFileName_key.
Qed.

Lemma storageKey_key p : storageKey p = storageKey (projectKey p).
Proof.
  destruct p as [p|]; simpl; [|done].
  destruct (String.eqb p EmptyString) eqn:Hp; simpl; [done|]. by rewrite Hp.
Qed.

Lemma storageKey_inj p q :
  storageKey p = storageKey q -> projectKey p = projectKey q.
Proof.
  rewrite (storageKey_key p), (storageKey_key q).
  destruct (projectKey_cases p) as [->|(s & -> & Hs)],
           (projectKey_cases q) as [->|(t & -> & Ht)];
    simpl; rewrite ?Hs, ?Ht; try done.
  intros H%append_inj_l. by subst.
Qed.

(** X17. Outside Tauri, with a [JSON.parse] that inverts [JSON.stringify]
    on configurations and a [JSON.stringify] that never gives the empty
    string: when [saveConfig] reports success, [loadConfigFromStorage] for
    the same project returns the configuration just saved, and what it
    returns for any other project is what it returned before.  Inside Tauri
    [loadConfigFromStorage] returns [null]. *)
Theorem saved_config_is_loaded_back {Config : Type}
    (stringify : Config -> string) (parse : string -> option Config)
    (fits : gmap string string -> string -> string -> bool)
    (config : Config) (p : option string)
    (storage storage' : gmap string string) :
  (forall c, parse (stringify c) = Some c) ->
  (forall c, stringify c <> EmptyString) ->
  saveConfigBrowser stringify fits config p storage = (true, storage') ->
  loadConfigFromStorage parse false p storage' = Some config /\
  (forall q, projectKey q <> projectKey p ->
     loadConfigFromStorage parse false q storage'
     = loadConfigFromStorage parse false q storage) /\
  (forall q, loadConfigFromStorage parse true q storage' = None).
Proof.
  intros Hrt Hne. unfold saveConfigBrowser.
  destruct (fits storage (storageKey p) (stringify config)); [|done].
  intros [= <-]. split; [|split; [|done]].
  - unfold loadConfigFromStorage. rewrite lookup_insert_eq.
    assert (String.eqb (stringify config) EmptyString = false) as ->
      by (by apply String.eqb_neq).
    apply Hrt.
  - intros q Hq. unfold loadConfigFromStorage.
    rewrite lookup_insert_ne; [done|].
    intros Heq. apply Hq. symmetry. by apply storageKey_inj.
Qed.

Lemma saved_config_is_loaded_back_witness :
  let stringify := fun c => String.append "cfg:" c in
  let parse := fun s => match s with
                        | String _ (String _ (String _ (String _ c))) => Some c
                        | _ => None
                        end in
  let fits := fun (_ : gmap string string) (_ _ : string) => true in
  loadConfigFromStorage parse false (Some "demo")
    (snd (saveConfigBrowser stringify fits "dark" (Some "demo") ∅))
  = Some "dark".
Proof.
  intros stringify parse fits.
  refine (proj1
    (saved_config_is_loaded_back stringify parse fits "dark" (Some "demo")
       ∅ _ _ _ _)).
  - intros c. reflexivity.
  - intros c. discriminate.
  - reflexivity.
Defined.

(** ** Loading the interface *)

Lemma httpFileExists_served server path requests :
  snd (httpFileExists server path requests) = requests ++ [path] /\
  (fst (httpFileExists server path requests) = true <->
   servedAsJson (server requests path)).
Proof.
  unfold httpFileExists, fetch, servedAsJson.
  destruct (server requests path) as [response|]; simpl.
  - split; [done|]. rewrite andb_true_iff. split.
    + intros [Hok Hjson]. by exists response.
    + by intros (response' & [= <-] & Hok & Hjson).
  - split; [done|]. split; [done|]. by intros (response & Hr & _).
Qed.

Lemma loadInterfaceFromHttp_carries {PI : Type} server
    (parse : string -> option PI) interface_version path requests :
  snd (loadInterfaceFromHttp server parse interface_version path requests)
    = requests ++ [path] /\
  forall pi,
    fst (loadInterfaceFromHttp server parse interface_version path requests)
      = Some pi <->
    carries parse interface_version (server requests path) pi.
Proof.
  unfold loadInterfaceFromHttp, fetch, carries.
  destruct (server requests path) as [response|]; simpl.
  - destruct (ok response) eqn:Hok; simpl.
    + destruct (text response) as [content|] eqn:Htext; simpl.
      * destruct (parse content) as [pi'|] eqn:Hparse; simpl.
        -- destruct (decide (interface_version pi' = Some 2)) as [Hv|Hv];
             simpl; (split; [done|]); intros pi; split.
           ++ intros [= <-]. by exists response, content.
           ++ intros (r & c & [= <-] & _ & Hc & Hp & _). congruence.
           ++ done.
           ++ intros (r & c & [= <-] & _ & Hc & Hp & Hv'). congruence.
        -- split; [done|]. intros pi. split; [done|].
           intros (r & c & [= <-] & _ & Hc & Hp & _). congruence.
      * split; [done|]. intros pi. split; [done|].
        intros (r & c & [= <-] & _ & Hc & _). congruence.
    + split; [done|]. intros pi. split; [done|].
      intros (r & c & [= <-] & Hok' & _). congruence.
  - split; [done|]. intros pi. split; [done|].
    by intros (r & c & Hr & _).
Qed.

Lemma loadTranslation_requests {T : Type} server (parseT : string -> option T)
    basePath acc entry :
  exists l,
    snd (loadTranslation server parseT basePath acc entry) = snd acc ++ l.
Proof.
  destruct acc as [translations requests], entry as [lang relativePath].
  unfold loadTranslation, fetch. simpl.
  set (langPath := if String.eqb basePath EmptyString then _ else _).
  exists [langPath]. repeat case_match; done.
Qed.

Lemma loadTranslationsFromHttp_requests {PI T : Type} server
    (parseT : string -> option T) languages (pi : PI) basePath requests :
  exists l,
    snd (loadTranslationsFromHttp server parseT languages pi basePath requests)
      = requests ++ l.
Proof.
  unfold loadTranslationsFromHttp.
  destruct (languages pi) as [entries|];
    [|exists []; simpl; by rewrite app_nil_r].
  assert (H : forall acc,
            exists l, snd (foldl (loadTranslation server parseT basePath)
                             acc entries) = snd acc ++ l).
  { induction entries as [|entry entries IH]; intros acc; simpl.
    - exists []. by rewrite app_nil_r.
    - destruct (IH (loadTranslation server parseT basePath acc entry))
        as [l2 ->].
      destruct (loadTranslation_requests server parseT basePath acc entry)
        as [l1 ->].
      exists (l1 ++ l2). by rewrite app_assoc. }
  apply (H ([], requests)).
Qed.

(** X18. [autoLoadInterface] first requests [/interface.json].  If the
    answer is served as JSON, the interface is loaded from a second request
    of the same path, and [/test/interface.json] is no fallback for it: when
    the second answer carries a version 2 interface, that interface is
    returned with an empty base path and without debug mode; when it does not
    (rejected request, HTTP error, unreadable or unparsable body, another
    version), [autoLoadInterface] throws after exactly these two requests.
    If the first answer is not served as JSON, [/test/interface.json] is
    checked and then loaded in the same way, with base path [/test] and debug
    mode; if neither is served as JSON, [autoLoadInterface] throws after one
    request of each.  An interface that is returned has version 2. *)
Theorem interface_loading_prefers_primary {PI T : Type}
    (server : Server) (parse : string -> option PI)
    (parseT : string -> option T) (interface_version : PI -> option Z)
    (languages : PI -> option (list (string * string))) :
  let P := "/interface.json" in
  let D := "/test/interface.json" in
  let run :=
    autoLoadInterface server parse parseT interface_version languages [] in
  (forall r, fst run = Some r ->
     interface_version (interface r) = Some 2 /\
     ((isDebugMode r = false /\ basePath r = EmptyString /\
       exists l, snd run = P :: P :: l) \/
      (isDebugMode r = true /\ basePath r = "/test" /\
       exists l, snd run = P :: D :: D :: l))) /\
  (servedAsJson (server [] P) ->
   (forall pi,
      carries parse interface_version (server [P] P) pi ->
      exists translations,
        fst run = Some (mkLoadResult pi translations EmptyString false)) /\
   ((forall pi, ~ carries parse interface_version (server [P] P) pi) ->
    run = (None, [P; P]))) /\
  (~ servedAsJson (server [] P) ->
   servedAsJson (server [P] D) ->
   (forall pi,
      carries parse interface_version (server [P; D] D) pi ->
      exists translations,
        fst run = Some (mkLoadResult pi translations "/test" true)) /\
   ((forall pi, ~ carries parse interface_version (server [P; D] D) pi) ->
    run = (None, [P; D; D]))) /\
  (~ servedAsJson (server [] P) ->
   ~ servedAsJson (server [P] D) ->
   run = (None, [P; D])).
Proof.
  cbv zeta. unfold autoLoadInterface.
  destruct (httpFileExists_served server "/interface.json" []) as [HeP HsP].
  destruct (httpFileExists server "/interface.json" []) as [primaryExists
      requests1].
  simpl in HeP, HsP. subst requests1.
  destruct (loadInterfaceFromHttp_carries server parse interface_version
      "/interface.json" ["/interface.json"])
    as [HlP HcP].
  destruct (loadInterfaceFromHttp server parse interface_version
      "/interface.json" ["/interface.json"])
    as [loadedP requestsP].
  simpl in HlP, HcP. subst requestsP.
  destruct (httpFileExists_served server "/test/interface.json"
      ["/interface.json"]) as [HeD HsD].
  destruct (httpFileExists server "/test/interface.json" ["/interface.json"])
      as [debugExists requests2].
  simpl in HeD, HsD. subst requests2.
  destruct (loadInterfaceFromHttp_carries server parse interface_version
      "/test/interface.json"
              ["/interface.json"; "/test/interface.json"]) as [HlD HcD].
  destruct (loadInterfaceFromHttp server parse interface_version
      "/test/interface.json" ["/interface.json"; "/test/interface.json"])
    as [loadedD requestsD].
  simpl in HlD, HcD. subst requestsD.
  destruct primaryExists.
  - assert (HP : servedAsJson (server [] "/interface.json")) by (by apply HsP).
    destruct loadedP as [pi|].
    + assert (Hpi : carries parse interface_version (server ["/interface.json"]
        "/interface.json") pi)
        by (by apply HcP).
      destruct (loadTranslationsFromHttp_requests server parseT languages pi
                  EmptyString ["/interface.json"; "/interface.json"]) as [l Hl].
      destruct (loadTranslationsFromHttp server parseT languages pi
                  EmptyString ["/interface.json"; "/interface.json"]) as
                      [translations requests3].
      simpl in Hl. subst requests3. simpl.
      split; [|split; [|split]].
      * intros r [= <-]. simpl. split; [by destruct Hpi as (?&?&?&?&?&?&?)|].
        left. split; [done|]. split; [done|]. by exists l.
      * intros _. split.
        -- intros pi' Hpi'. apply HcP in Hpi'. injection Hpi' as <-.
           by exists translations.
        -- intros Hno. by destruct (Hno pi).
      * by intros Hno.
      * by intros Hno.
    + simpl. split; [done|]. split; [|split]; [|by intros Hno..].
      intros _. split; [|done].
      intros pi Hpi. by apply HcP in Hpi.
  - assert (HP : ~ servedAsJson (server [] "/interface.json")).
    { intros HP. apply HsP in HP. discriminate. }
    destruct debugExists.
    + assert (HD : servedAsJson (server ["/interface.json"]
        "/test/interface.json")) by (by apply HsD).
      destruct loadedD as [pi|].
      * assert (Hpi : carries parse interface_version (server
          ["/interface.json"; "/test/interface.json"] "/test/interface.json")
          pi)
          by (by apply HcD).
        destruct (loadTranslationsFromHttp_requests server parseT languages pi
                    "/test" ["/interface.json"; "/test/interface.json";
                        "/test/interface.json"]) as [l Hl].
        destruct (loadTranslationsFromHttp server parseT languages pi
                    "/test" ["/interface.json"; "/test/interface.json";
                        "/test/interface.json"]) as [translations requests4].
        simpl in Hl. subst requests4. simpl.
        split; [|split; [|split]].
        -- intros r [= <-]. simpl.
           split; [by destruct Hpi as (?&?&?&?&?&?&?)|].
           right. split; [done|]. split; [done|]. by exists l.
        -- by intros HP'.
        -- intros _ _. split.
           ++ intros pi' Hpi'. apply HcD in Hpi'. injection Hpi' as <-.
              by exists translations.
           ++ intros Hno. by destruct (Hno pi).
        -- by intros _ HD'.
      * simpl. split; [done|]. split; [by intros HP'|]. split.
        -- intros _ _. split; [|done].
           intros pi Hpi. by apply HcD in Hpi.
        -- by intros _ HD'.
    + assert (HD : ~ servedAsJson (server ["/interface.json"]
        "/test/interface.json")).
      { intros HD. apply HsD in HD. discriminate. }
      simpl. split; [done|]. split; [by intros HP'|].
      split; [by intros _ HD'|done].
Qed.

Lemma interface_loading_prefers_primary_witness :
  let failing : Server := fun requests path =>
    match requests with
    | [] => Some (mkResponse true true (Some "2"))
    | _ => Some (mkResponse false true None)
    end in
  let debugOnly : Server := fun requests path =>
    if String.eqb path "/test/interface.json"
    then Some (mkResponse true true (Some "2"))
    else Some (mkResponse false false None) in
  let version := fun s => if String.eqb s "2" then Some 2 else None in
  autoLoadInterface failing Some Some version (fun _ => None) []
    = (None : option (LoadResult string string),
       ["/interface.json"; "/interface.json"]) /\
  exists translations : list (string * string),
    fst (autoLoadInterface debugOnly Some Some version (fun _ => None) [])
      = Some (mkLoadResult "2" translations "/test" true).
Proof.
  intros failing debugOnly version. split.
  - refine (proj2 (proj1 (proj2
      (interface_loading_prefers_primary failing Some Some version
         (fun _ => None))) _) _).
    + exists (mkResponse true true (Some "2")). repeat split; reflexivity.
    + intros pi (response & content & Hr & Hok & _).
      injection Hr as <-. discriminate.
  - refine (proj1 (proj1 (proj2 (proj2
      (interface_loading_prefers_primary debugOnly Some Some version
         (fun _ => None)))) _ _) "2" _).
    + intros (response & Hr & Hok & _). injection Hr as <-. discriminate.
    + exists (mkResponse true true (Some "2")). repeat split; reflexivity.
    + exists (mkResponse true true (Some "2")), "2". repeat split; reflexivity.
Defined.
